(** * DiskIOBenchmark: the write and read sweeps of [Benchmark.cpp]

    A shallow embedding of [benchmark_write], [benchmark_read] and [main]
    as programs of a small state-and-exit monad.  The operating system is
    an oracle that answers every library call; the program's observable
    behaviour is the log of calls (with their answers), printed lines,
    [perror] diagnostics and the exit status. *)

From Stdlib Require Import ZArith List String Bool Lia QArith.
Import ListNotations.
Local Open Scope string_scope.
Local Open Scope list_scope.
Local Open Scope Z_scope.

(** ** Machine integers (LP64: [int] and [uint32_t] 32 bits, [uint64_t] 64) *)

Definition wrap32 (z : Z) : Z := z mod 2 ^ 32.
Definition wrap64 (z : Z) : Z := z mod 2 ^ 64.

(** Conversion of a 32-bit pattern to [int] (two's complement). *)
Definition to_int32 (z : Z) : Z := (z + 2 ^ 31) mod 2 ^ 32 - 2 ^ 31.

(** ** Configuration constants, lines 19-38 *)

Definition minExp : Z := 9.
Definition maxExp : Z := 28.

(** [const double smallBigThreshold = 1e6].  It is only ever compared with a
    [uint32_t], whose conversion to [double] is exact, so the comparison is
    the comparison of integers. *)
Definition smallBigThreshold : Z := 1000000.
Definition smallCount : Z := 100.
Definition largeCount : Z := 3.

(** [const int maxSize = 1 << maxExp] at file scope. *)
Definition maxSize : Z := to_int32 (Z.shiftl 1 maxExp).

(** Open flags of <fcntl.h> on Linux x86-64. *)
Definition O_WRONLY : Z := 1.
Definition O_RDWR : Z := 2.
Definition O_CREAT : Z := 64.
Definition O_DIRECT : Z := 16384.
Definition O_SYNC : Z := 1052672.

(** ** Observable behaviour *)

(** A [double]-valued expression as the code builds it for [printf]. *)
Inductive dexpr : Type :=
| DOfInt (z : Z)
| D1e6
| DToSeconds (cycles : Z)
| DDiv (a b : dexpr).

Inductive Sweep : Type := WriteSweep | ReadSweep.

Inductive Line : Type :=
| Banner (k : Sweep) (filename : string)
| ExtraComment (c : string)
| ColumnHeads (k : Sweep)
| WriteRow (size : Z) (bandwidth writeTime fsyncTime : dexpr)
| ReadRow (size : Z) (bandwidth readTime : dexpr)
| ShortRead (expected got : Z)
| Blank
| Description
| Usage.

(** Library calls whose answer comes from the platform. *)
Inductive Call : Type :=
| Posix_memalign (alignment size : Z)
| Open (path : string) (flags mode : Z)
| Pwrite (fd count offset : Z)
| Write (fd count : Z)
| Pread (fd count offset : Z)
| Fsync (fd : Z)
| Close (fd : Z)
| Remove (path : string).

Inductive Event : Type :=
| Sys (c : Call) (ret : Z)
| Printf (l : Line)
| Perror (msg : string)
| Setlocale
| Free
| Exit (status : Z).

(** The platform: the answer to the [n]-th library call, and the [n]-th
    reading of the cycle counter. *)
Record Env : Type := mkEnv {
  sys : nat -> Call -> Z;
  clock : nat -> Z
}.

Record World : Type := mkWorld {
  calls : nat;
  ticks : nat;
  log : list Event
}.

Definition start : World := mkWorld 0 0 [].

(** ** The monad: state passing, with [exit] as the exceptional outcome *)

Inductive Outcome (A : Type) : Type :=
| Done (a : A)
| Exited (status : Z).
Arguments Done {A} a.
Arguments Exited {A} status.

Definition M (A : Type) : Type := Env -> World -> Outcome A * World.

Definition ret {A} (a : A) : M A := fun _ w => (Done a, w).

Definition bind {A B} (m : M A) (k : A -> M B) : M B :=
  fun env w =>
    match m env w with
    | (Done a, w') => k a env w'
    | (Exited s, w') => (Exited s, w')
    end.

Notation "x <- m ;; k" := (bind m (fun x => k))
  (at level 61, m at next level, right associativity).
Notation "m ;; k" := (bind m (fun _ => k))
  (at level 61, right associativity).

Definition emit (e : Event) : M unit :=
  fun _ w => (Done tt, mkWorld (calls w) (ticks w) (log w ++ [e])).

Definition call (c : Call) : M Z :=
  fun env w =>
    let r := sys env (calls w) c in
    (Done r, mkWorld (S (calls w)) (ticks w) (log w ++ [Sys c r])).

(** [Cycles::rdtsc()], of Cycles.h, which is not among the sources: every
    use stores its result in a [uint64_t], and the reading itself is an
    answer of the platform. *)
Definition rdtsc : M Z :=
  fun env w =>
    (Done (wrap64 (clock env (ticks w))), mkWorld (calls w) (S (ticks w)) (log w)).

Definition printf (l : Line) : M unit := emit (Printf l).
Definition perror (msg : string) : M unit := emit (Perror msg).

Definition exit {A} (status : Z) : M A :=
  fun _ w => (Exited status, mkWorld (calls w) (ticks w) (log w ++ [Exit status])).

(** [for (i = lo; ...; ++i)] running [n] times over the loop-carried
    variables [a]. *)
Fixpoint for_loop {A} (n : nat) (i : Z) (body : Z -> A -> M A) (a : A) : M A :=
  match n with
  | O => ret a
  | S n' => a' <- body i a ;; for_loop n' (i + 1) body a'
  end.

(** ** The repetition count, lines 89 and 179 *)

Definition repCount (size : Z) : Z :=
  if size >? smallBigThreshold then largeCount else smallCount.

(** ** [benchmark_write], lines 47-123 *)

Record WriteVars : Type := mkWriteVars {
  filePos : Z;
  writeCycles : Z;
  fsyncCycles : Z
}.

(** Line 97: [filePos += writeSize] on a [uint32_t]. *)
Definition advance (filePos writeSize : Z) : Z := wrap32 (filePos + writeSize).

(** One repetition, lines 92-105. *)
Definition write_rep (outputfile writeSize : Z) (i : Z) (v : WriteVars)
  : M WriteVars :=
  startWrite <- rdtsc ;;
  r <- call (Pwrite outputfile writeSize (filePos v)) ;;
  filePos' <- (if writeSize =? r
               then ret (advance (filePos v) writeSize)
               else perror "Write" ;; exit (-1)) ;;
  fsyncStart <- rdtsc ;;
  _ <- call (Fsync outputfile) ;;
  stop <- rdtsc ;;
  ret (mkWriteVars filePos'
         (wrap64 (writeCycles v + wrap64 (fsyncStart - startWrite)))
         (wrap64 (fsyncCycles v + wrap64 (stop - fsyncStart)))).

Definition write_row (writeSize count : Z) (v : WriteVars) : Line :=
  let totalCycles := wrap64 (writeCycles v + fsyncCycles v) in
  WriteRow writeSize
    (DDiv (DDiv (DOfInt writeSize)
                (DDiv (DToSeconds totalCycles) (DOfInt count))) D1e6)
    (DDiv (DToSeconds (writeCycles v)) (DOfInt count))
    (DDiv (DToSeconds (fsyncCycles v)) (DOfInt count)).

(** The body of the loop over exponents, lines 80-116. *)
Definition write_size (filename : string) (extraFileOps : Z) (e : Z) (_ : unit)
  : M unit :=
  outputfile <- call (Open filename (Z.lor (Z.lor O_WRONLY O_CREAT) extraFileOps) 438) ;;
  (if -1 =? outputfile
   then perror "Opening file failed" ;; exit (-1)
   else ret tt) ;;
  let writeSize := wrap32 (Z.shiftl 1 e) in
  let count := repCount writeSize in
  v <- for_loop (Z.to_nat count) 0 (write_rep outputfile writeSize)
         (mkWriteVars 0 0 0) ;;
  call (Close outputfile) ;;
  call (Remove filename) ;;
  printf (write_row writeSize count v).

Definition print_comment (extraComments : option string) : M unit :=
  match extraComments with
  | Some c => printf (ExtraComment c)
  | None => ret tt
  end.

Definition benchmark_write (filename : string) (extraComments : option string)
    (extraFileOps : Z) : M unit :=
  printf (Banner WriteSweep filename) ;;
  print_comment extraComments ;;
  emit Setlocale ;;
  printf (ColumnHeads WriteSweep) ;;
  m <- call (Posix_memalign 512 maxSize) ;;
  (if m =? 0 then ret tt else perror "Memalign failed" ;; exit (-1)) ;;
  for_loop (Z.to_nat (maxExp + 1 - minExp)) minExp
    (write_size filename extraFileOps) tt ;;
  printf Blank ;;
  emit Free.

(** ** [benchmark_read], lines 132-214 *)

(** The local [maxSize] of line 153, computed in [int]. *)
Definition readMaxSize : Z :=
  Z.max (to_int32 (to_int32 (Z.shiftl 1 maxExp) * largeCount))
        (to_int32 (to_int32 (Z.shiftl 1 20) * smallCount)).

(** Line 185: [int filePos = (i*filePosIncrement) & ~(512 - 1)].  The product
    is taken in [uint32_t], the mask [~511] is converted to [uint32_t], and
    the result is converted back to [int]. *)
Definition read_offset (i filePosIncrement : Z) : Z :=
  to_int32 (Z.land (wrap32 (i * filePosIncrement))
                   (wrap32 (Z.lnot (512 - 1)))).

(** One repetition, lines 185-198.  [bytesRead] is a [uint32_t]. *)
Definition read_rep (file readSize filePosIncrement : Z) (i : Z) (readCycles : Z)
  : M Z :=
  let filePos := read_offset i filePosIncrement in
  startRead <- rdtsc ;;
  r <- call (Pread file readSize filePos) ;;
  let bytesRead := wrap32 r in
  (if readSize =? bytesRead
   then ret tt
   else printf (ShortRead readSize (to_int32 bytesRead)) ;;
        perror "Read" ;; exit (-1)) ;;
  stop <- rdtsc ;;
  ret (wrap64 (readCycles + wrap64 (stop - startRead))).

Definition read_row (readSize count readCycles : Z) : Line :=
  ReadRow readSize
    (DDiv (DDiv (DOfInt readSize)
                (DDiv (DToSeconds readCycles) (DOfInt count))) D1e6)
    (DDiv (DToSeconds readCycles) (DOfInt count)).

(** The body of the loop over exponents, lines 178-204. *)
Definition read_size (file : Z) (e : Z) (_ : unit) : M unit :=
  let readSize := wrap32 (Z.shiftl 1 e) in
  let count := repCount readSize in
  let filePosIncrement := wrap32 (readMaxSize / count) in
  readCycles <- for_loop (Z.to_nat count) 0
                  (read_rep file readSize filePosIncrement) 0 ;;
  printf (read_row readSize count readCycles).

Definition benchmark_read (filename : string) (extraComments : option string)
    (extraFileOps : Z) : M unit :=
  emit Setlocale ;;
  printf (Banner ReadSweep filename) ;;
  print_comment extraComments ;;
  printf (ColumnHeads ReadSweep) ;;
  m <- call (Posix_memalign 512 readMaxSize) ;;
  (if m =? 0 then ret tt else perror "Memalign failed" ;; exit (-1)) ;;
  file <- call (Open filename (Z.lor (Z.lor O_RDWR O_CREAT) extraFileOps) 438) ;;
  (if -1 =? file then perror "Opening file failed" ;; exit (-1) else ret tt) ;;
  n <- call (Write file readMaxSize) ;;
  (if readMaxSize =? n then ret tt else perror "Initial Write" ;; exit (-1)) ;;
  call (Fsync file) ;;
  for_loop (Z.to_nat (maxExp + 1 - minExp)) minExp (read_size file) tt ;;
  call (Close file) ;;
  call (Remove filename) ;;
  printf Blank ;;
  emit Free.

(** ** [main], lines 216-235 *)

Definition default_filename : string := "/tmp/benchmark.tmp".

Definition main (argv : list string) : M Z :=
  let argc := Z.of_nat (List.length argv) in
  (if 3 <=? argc
   then printf Description ;; printf Usage ;; exit (-1)
   else ret tt) ;;
  let filename := if argc =? 2 then nth 1 argv default_filename
                  else default_filename in
  benchmark_write filename (Some "With O_DIRECT|O_SYNC") (Z.lor O_DIRECT O_SYNC) ;;
  benchmark_read filename (Some "With O_DIRECT|O_SYNC") (Z.lor O_DIRECT O_SYNC) ;;
  ret 0.

(** ** A platform on which every call succeeds *)

Definition ideal_sys (_ : nat) (c : Call) : Z :=
  match c with
  | Posix_memalign _ _ => 0
  | Open _ _ _ => 3
  | Pwrite _ count _ => count
  | Write _ count => count
  | Pread _ count _ => count
  | Fsync _ => 0
  | Close _ => 0
  | Remove _ => 0
  end.

Definition ideal : Env := mkEnv ideal_sys (fun n => 1000 * Z.of_nat n).

(** * Vocabulary of the statements *)

(** The [n]-th reading of the cycle counter. *)
Definition rd (env : Env) (n : nat) : Z := wrap64 (clock env n).

(** The lines printed before the buffer is allocated. *)
Definition write_header (f : string) (c : option string) : list Event :=
  Printf (Banner WriteSweep f)
  :: match c with Some c => [Printf (ExtraComment c)] | None => [] end
  ++ [Setlocale; Printf (ColumnHeads WriteSweep)].

Definition read_header (f : string) (c : option string) : list Event :=
  Setlocale :: Printf (Banner ReadSweep f)
  :: match c with Some c => [Printf (ExtraComment c)] | None => [] end
  ++ [Printf (ColumnHeads ReadSweep)].

(** ** Offsets of the transfers *)

(** The offsets of the [pwrite]s (of the [pread]s) of a given size, in the
    order of the log. *)
Definition pwrite_offsets (size : Z) (l : list Event) : list Z :=
  flat_map (fun ev => match ev with
                      | Sys (Pwrite _ c off) _ => if c =? size then [off] else []
                      | _ => []
                      end) l.

Definition pread_offsets (size : Z) (l : list Event) : list Z :=
  flat_map (fun ev => match ev with
                      | Sys (Pread _ c off) _ => if c =? size then [off] else []
                      | _ => []
                      end) l.

(** [f 0; f 1; ...; f (m - 1)]. *)
Definition first_n (f : Z -> Z) (m : nat) : list Z :=
  map (fun k => f (Z.of_nat k)) (seq 0 m).

(** How far a sweep has come: the sizes below exponent [e] are finished,
    size [2^e] has had [k] transfers, the larger ones none.  [proj] is
    [pwrite_offsets] or [pread_offsets] and [off e j] the expected offset of
    transfer [j] of exponent [e]. *)
Definition progress (proj : Z -> list Event -> list Z) (off : Z -> Z -> Z)
    (e : Z) (k : nat) (l : list Event) : Prop :=
  forall e', minExp <= e' <= maxExp ->
    proj (2 ^ e') l =
    if e' <? e then first_n (off e') (Z.to_nat (repCount (2 ^ e')))
    else if e' =? e then first_n (off e) k
    else [].

(** What a run of a sweep leaves in the log, finished or not: for every
    size, the first [m] expected offsets, all of them if the run finished. *)
Definition offsets_upto (proj : Z -> list Event -> list Z) (off : Z -> Z -> Z)
    (finished : bool) (l : list Event) : Prop :=
  forall e, minExp <= e <= maxExp ->
    exists m : nat,
      (m <= Z.to_nat (repCount (2 ^ e)))%nat /\
      (finished = true -> m = Z.to_nat (repCount (2 ^ e))) /\
      proj (2 ^ e) l = first_n (off e) m.

(** The expected offset of write [j] of exponent [e]. *)
Definition write_offset (e j : Z) : Z := j * 2 ^ e.

(** The offset of read [k] of exponent [e], in the integers. *)
Definition read_at (e k : Z) : Z :=
  Z.land (k * (readMaxSize / repCount (2 ^ e))) (Z.lnot 511).

(** ** Failing fast *)

(** An event of a run that goes on: a transfer whose result the program
    accepts, and neither a diagnostic nor an exit. *)
Definition checked (ev : Event) : Prop :=
  match ev with
  | Sys (Pwrite _ count _) r => r = count
  | Sys (Pread _ count _) r => wrap32 r = count
  | Perror _ => False
  | Exit _ => False
  | _ => True
  end.

(** The calls made before the loops, whose failure is fatal. *)
Definition is_setup (c : Call) : bool :=
  match c with
  | Posix_memalign _ _ | Open _ _ _ | Write _ _ => true
  | _ => false
  end.

(** The ways a sweep ends early: the failing call, the diagnostic, the
    exit. *)
Inductive failure : list Event -> Prop :=
| fail_setup c r msg :
    is_setup c = true ->
    failure [Sys c r; Perror msg; Exit (-1)]
| fail_pwrite fd size off r :
    r <> size ->
    failure [Sys (Pwrite fd size off) r; Perror "Write"; Exit (-1)]
| fail_pread fd size off r :
    wrap32 r <> size ->
    failure [Sys (Pread fd size off) r;
             Printf (ShortRead size (to_int32 (wrap32 r)));
             Perror "Read"; Exit (-1)].

Definition aborted (l : list Event) : Prop :=
  exists pre tail, l = pre ++ tail /\ Forall checked pre /\ failure tail.

(** Each [pwrite] or [pread] of the log either transferred the requested
    size, or is followed by the diagnostic and the exit and nothing else. *)
Definition fail_fast (l : list Event) : Prop :=
  (forall pre fd size off r post,
     l = pre ++ Sys (Pwrite fd size off) r :: post ->
     r = size \/ post = [Perror "Write"; Exit (-1)]) /\
  (forall pre fd size off r post,
     l = pre ++ Sys (Pread fd size off) r :: post ->
     wrap32 r = size \/
     post = [Printf (ShortRead size (to_int32 (wrap32 r)));
             Perror "Read"; Exit (-1)]).

(** The status a parent process sees after [exit(status)]. *)
Definition exit_status (status : Z) : Z := status mod 256.

(** ** Accumulated cycles and printed values *)

(** [f 0 + ... + f (n - 1)]. *)
Fixpoint sum_upto (n : nat) (f : nat -> Z) : Z :=
  match n with
  | O => 0
  | S n' => sum_upto n' f + f n'
  end.

(** Repetition [j] of a size whose loop starts at counter reading [t] takes
    the readings [t + 3 j] (before the write), [t + 3 j + 1] (between write
    and sync) and [t + 3 j + 2] (after the sync). *)
Definition write_delta (env : Env) (t j : nat) : Z :=
  rd env (t + 3 * j + 1) - rd env (t + 3 * j).
Definition fsync_delta (env : Env) (t j : nat) : Z :=
  rd env (t + 3 * j + 2) - rd env (t + 3 * j + 1).
Definition whole_delta (env : Env) (t j : nat) : Z :=
  rd env (t + 3 * j + 2) - rd env (t + 3 * j).

(** Modelled from the spec: [Cycles::toSeconds] of Cycles.cpp, which is not
    among the sources; section 4.3 has cycle counts converted to seconds
    "via a calibrated cycles-per-second ratio". *)
Definition toSeconds (cyclesPerSec : Q) (cycles : Z) : Q :=
  (inject_Z cycles / cyclesPerSec)%Q.

(** The value of a [printf] argument in exact arithmetic. *)
Fixpoint dval (cyclesPerSec : Q) (d : dexpr) : Q :=
  match d with
  | DOfInt z => inject_Z z
  | D1e6 => inject_Z 1000000
  | DToSeconds cycles => toSeconds cyclesPerSec cycles
  | DDiv a b => (dval cyclesPerSec a / dval cyclesPerSec b)%Q
  end.

(** ** Platforms that differ in the answers of [fsync] *)

(** The platform [env] with the answer of the [n]-th call replaced by [r n]
    whenever that call is an [fsync]. *)
Definition with_fsync (r : nat -> Z) (env : Env) : Env :=
  mkEnv (fun n c => match c with Fsync _ => r n | _ => sys env n c end)
        (clock env).

(** An event without the answer of [fsync]. *)
Definition forget_fsync (ev : Event) : Event :=
  match ev with
  | Sys (Fsync fd) _ => Sys (Fsync fd) 0
  | _ => ev
  end.

Definition same_but_fsync (w1 w2 : World) : Prop :=
  calls w1 = calls w2 /\ ticks w1 = ticks w2 /\
  map forget_fsync (log w1) = map forget_fsync (log w2).

Definition same_run {A} (a b : Outcome A * World) : Prop :=
  fst a = fst b /\ same_but_fsync (snd a) (snd b).

(** [m] behaves the same on [env] and on [env] with the answers [r] for
    [fsync]. *)
Definition indep (r : nat -> Z) (env : Env) {A} (m : M A) : Prop :=
  forall w1 w2, same_but_fsync w1 w2 ->
    same_run (m (with_fsync r env) w1) (m env w2).

(** ** The program *)

(** The file name [main] passes to the sweeps. *)
Definition main_filename (argv : list string) : string :=
  if Z.of_nat (List.length argv) =? 2 then nth 1 argv default_filename
  else default_filename.

Definition main_comment : option string := Some "With O_DIRECT|O_SYNC".
Definition main_flags : Z := Z.lor O_DIRECT O_SYNC.

Definition usage_log : list Event :=
  [Printf Description; Printf Usage; Exit (-1)].

(** A run of the program that ends early ends in one of these ways. *)
Definition ended_early (l : list Event) : Prop := aborted l \/ l = usage_log.

(** No [fsync] of the log is followed by a diagnostic or an exit. *)
Definition no_fatal_fsync (l : list Event) : Prop :=
  forall pre fd r post,
    l = pre ++ Sys (Fsync fd) r :: post ->
    match post with
    | Perror _ :: _ | Exit _ :: _ => False
    | _ => True
    end.

(** ** Resources *)

(** [P pre ev] holds for every event [ev] of the log, [pre] being the log
    before it. *)
Definition at_each (P : list Event -> Event -> Prop) (l : list Event) : Prop :=
  forall pre ev post, l = pre ++ ev :: post -> P pre ev.

Definition fd_step (fds : list Z) (ev : Event) : list Z :=
  match ev with
  | Sys (Open _ _ _) r => if r =? -1 then fds else r :: fds
  | Sys (Close fd) _ => remove Z.eq_dec fd fds
  | _ => fds
  end.

Definition buf_step (n : nat) (ev : Event) : nat :=
  match ev with
  | Sys (Posix_memalign _ _) r => if r =? 0 then S n else n
  | Free => pred n
  | _ => n
  end.

(** The descriptors open, and the number of buffers allocated, after a log. *)
Definition live_fds (l : list Event) : list Z := fold_left fd_step l [].
Definition live_bufs (l : list Event) : nat := fold_left buf_step l 0%nat.

(** At every operation on a descriptor exactly one buffer and exactly one
    descriptor are alive, the descriptor being the one operated on; when a
    descriptor is opened none is alive. *)
Definition one_of_each (pre : list Event) (ev : Event) : Prop :=
  match ev with
  | Sys (Pwrite fd _ _) _ | Sys (Pread fd _ _) _ | Sys (Write fd _) _
  | Sys (Fsync fd) _ | Sys (Close fd) _ =>
      live_fds pre = [fd] /\ live_bufs pre = 1%nat
  | Sys (Open _ _ _) _ => live_fds pre = [] /\ live_bufs pre = 1%nat
  | _ => True
  end.

(** The state of the resources: [at_each one_of_each] so far, and what is
    alive now. *)
Definition resources (fds : list Z) (bufs : nat) (l : list Event) : Prop :=
  at_each one_of_each l /\ live_fds l = fds /\ live_bufs l = bufs.

Definition tracked (l : list Event) : Prop :=
  exists fds bufs, resources fds bufs l.

(** No descriptor has been closed. *)
Definition never_closed (l : list Event) : Prop :=
  Forall (fun ev => forall fd r, ev <> Sys (Close fd) r) l.

(** At every [pread] the descriptor of the file has not been closed since
    the log began. *)
Definition open_throughout (pre : list Event) (ev : Event) : Prop :=
  match ev with
  | Sys (Pread _ _ _) _ => never_closed pre
  | _ => True
  end.

Definition xfer_size (ev : Event) : option Z :=
  match ev with
  | Sys (Pwrite _ count _) _ | Sys (Pread _ count _) _ => Some count
  | _ => None
  end.

Definition has_close (l : list Event) : Prop :=
  exists fd r, In (Sys (Close fd) r) l.

(** Between two transfers of different sizes a descriptor is closed. *)
Definition closed_between_sizes (l : list Event) : Prop :=
  forall pre e1 mid e2 post S1 S2,
    l = pre ++ e1 :: mid ++ e2 :: post ->
    xfer_size e1 = Some S1 -> xfer_size e2 = Some S2 -> S1 <> S2 ->
    has_close mid.

(** Every transfer of the log of a size other than [S] is followed by a
    close. *)
Definition settled (S : Z) (l : list Event) : Prop :=
  forall p e1 mid S1,
    l = p ++ e1 :: mid -> xfer_size e1 = Some S1 -> S1 <> S -> has_close mid.

Definition settled_before (pre : list Event) (ev : Event) : Prop :=
  forall S, xfer_size ev = Some S -> settled S pre.

(** [sized (Some S)]: inside size [S]; [sized None]: between sizes. *)
Definition sized (o : option Z) (l : list Event) : Prop :=
  at_each settled_before l /\
  match o with
  | Some size => settled size l
  | None => forall size, settled size l
  end.

Definition between_sizes (l : list Event) : Prop := exists o, sized o l.

Definition kept_open (l : list Event) : Prop :=
  at_each open_throughout l /\ never_closed l.

(** ** The target file *)

(** The file-system operations of a log, without descriptors and answers. *)
Inductive Op : Type :=
| OOpen (path : string)
| OXfer (size : Z)
| OClose
| ORemove (path : string).

Definition skeleton (l : list Event) : list Op :=
  flat_map (fun ev => match ev with
                      | Sys (Open p _ _) _ => [OOpen p]
                      | Sys (Pwrite _ count _) _ => [OXfer count]
                      | Sys (Pread _ count _) _ => [OXfer count]
                      | Sys (Close _) _ => [OClose]
                      | Sys (Remove p) _ => [ORemove p]
                      | _ => []
                      end) l.

(** The exponents [minExp, ..., e - 1]. *)
Definition exps_below (e : Z) : list Z :=
  map (fun i => minExp + Z.of_nat i) (seq 0 (Z.to_nat (e - minExp))).

Definition transfers (e : Z) : list Op :=
  repeat (OXfer (2 ^ e)) (Z.to_nat (repCount (2 ^ e))).

(** The write sweep: for each size, open, the transfers, close, remove. *)
Definition write_size_ops (f : string) (e : Z) : list Op :=
  OOpen f :: transfers e ++ [OClose; ORemove f].
Definition write_ops (f : string) : list Op :=
  flat_map (write_size_ops f) (exps_below (maxExp + 1)).

(** The read sweep: open, the transfers of all sizes, close, remove. *)
Definition read_ops (f : string) : list Op :=
  OOpen f :: flat_map transfers (exps_below (maxExp + 1)) ++ [OClose; ORemove f].

Definition present_step (path : string) (present : bool) (ev : Event) : bool :=
  match ev with
  | Sys (Open p _ _) r =>
      if String.eqb p path && negb (r =? -1) then true else present
  | Sys (Remove p) r =>
      if String.eqb p path && (r =? 0) then false else present
  | _ => present
  end.

(** Whether a file is at [path] after the log, [before] telling whether one
    was there at the start: a successful [open] (with [O_CREAT]) leaves one,
    a successful [remove] leaves none. *)
Definition file_present (path : string) (before : bool) (l : list Event) : bool :=
  fold_left (present_step path) l before.

Definition path_is (f : string) (ev : Event) : Prop :=
  match ev with
  | Sys (Open p _ _) _ | Sys (Remove p) _ => p = f
  | Printf (Banner _ p) => p = f
  | _ => True
  end.

(** A platform on which every call succeeds except [remove]. *)
Definition stuck : Env :=
  mkEnv (fun n c => match c with Remove _ => -1 | _ => ideal_sys n c end)
        (clock ideal).

(** ** Further vocabulary: platforms, outlines, setup calls *)

(** A platform on which allocation, [open] and every write succeed, and a
    [pread] that ends within the first [readMaxSize] bytes of the file
    returns the count asked. *)
Definition obliging (env : Env) : Prop :=
  (forall n a s, sys env n (Posix_memalign a s) = 0) /\
  (forall n p fl m, sys env n (Open p fl m) <> -1) /\
  (forall n fd c off, sys env n (Pwrite fd c off) = c) /\
  (forall n fd c, sys env n (Write fd c) = c) /\
  (forall n fd c off, 0 <= off -> off + c <= readMaxSize ->
     sys env n (Pread fd c off) = c).

(** The transfers and the printed rows of a log, by size. *)
Inductive Mark : Type :=
| MXfer (size : Z)
| MRow (size : Z).

Definition outline (l : list Event) : list Mark :=
  flat_map (fun ev => match ev with
                      | Sys (Pwrite _ count _) _ => [MXfer count]
                      | Sys (Pread _ count _) _ => [MXfer count]
                      | Printf (WriteRow size _ _ _) => [MRow size]
                      | Printf (ReadRow size _ _) => [MRow size]
                      | _ => []
                      end) l.

(** A size that is done: its repetitions, then its row. *)
Definition size_done (e : Z) : list Mark :=
  repeat (MXfer (2 ^ e)) (Z.to_nat (repCount (2 ^ e))) ++ [MRow (2 ^ e)].

(** The sizes below exponent [e] done, and [k] transfers of size [2^e]. *)
Definition outline_upto (e k : Z) : list Mark :=
  flat_map size_done (exps_below e) ++ repeat (MXfer (2 ^ e)) (Z.to_nat k).

(** How far the outline of a log goes. *)
Definition outlined (l : list Event) : Prop :=
  exists e k,
    minExp <= e <= maxExp + 1 /\ 0 <= k <= repCount (2 ^ e) /\
    outline l = outline_upto e k.

(** The run ended on a failed allocation or a failed [open]. *)
Definition setup_failed (l : list Event) : Prop :=
  exists pre c r msg,
    l = pre ++ [Sys c r; Perror msg; Exit (-1)] /\
    match c with
    | Posix_memalign _ _ | Open _ _ _ => True
    | _ => False
    end.

Definition buffer_step (b : option Z) (ev : Event) : option Z :=
  match ev with
  | Sys (Posix_memalign _ size) r => if r =? 0 then Some size else b
  | Free => None
  | _ => b
  end.

(** The size of the buffer allocated and not yet freed, after a log. *)
Definition live_buffer (l : list Event) : option Z :=
  fold_left buffer_step l None.

Definition written_step (n : Z) (ev : Event) : Z :=
  match ev with
  | Sys (Write _ count) r => if r =? count then count else n
  | _ => n
  end.

(** The bytes that the last complete initial [write] of a log put into the
    file, 0 if there was none. *)
Definition initial_bytes (l : list Event) : Z := fold_left written_step l 0.

(** What direct I/O asks of a call, and what the buffer of its sweep allows,
    [pre] being the log before the call.  An allocation asks for alignment
    512 and is made when no buffer is alive.  A [pwrite] or [pread] has a
    size and an offset that are multiples of 512 and a positive size no
    larger than the buffer alive at the call; a [pwrite] ends within the first
    [3 * 2^28] bytes of the file, a [pread] within the bytes the initial
    write put there.  The initial [write] writes the buffer alive at the
    call, all of it. *)
Definition fits_buffer (pre : list Event) (ev : Event) : Prop :=
  match ev with
  | Sys (Posix_memalign a _) _ => a = 512 /\ live_buffer pre = None
  | Sys (Pwrite _ c off) _ =>
      (512 | c) /\ (512 | off) /\ 0 <= off /\ off + c <= 3 * 2 ^ 28 /\
      exists size, live_buffer pre = Some size /\ 0 < c <= size
  | Sys (Pread _ c off) _ =>
      (512 | c) /\ (512 | off) /\ 0 <= off /\ off + c <= initial_bytes pre /\
      exists size, live_buffer pre = Some size /\ 0 < c <= size
  | Sys (Write _ c) _ => (512 | c) /\ live_buffer pre = Some c
  | _ => True
  end.

(** The state of the buffer: [at_each fits_buffer] so far, the buffer alive
    now and the bytes of the initial write. *)
Definition buffered (b : option Z) (n : Z) (l : list Event) : Prop :=
  at_each fits_buffer l /\ live_buffer l = b /\ initial_bytes l = n.

(** An event of a run that goes on, the calls before the loops included:
    every checked call succeeded, nothing was diagnosed. *)
Definition accepted (ev : Event) : Prop :=
  match ev with
  | Sys (Posix_memalign _ _) r => r = 0
  | Sys (Open _ _ _) r => r <> -1
  | Sys (Write _ count) r => r = count
  | Sys (Pwrite _ count _) r => r = count
  | Sys (Pread _ count _) r => wrap32 r = count
  | Perror _ => False
  | Exit _ => False
  | _ => True
  end.

(** The failing call of an early end, with the diagnostic of its own. *)
Inductive fatal : list Event -> Prop :=
| fatal_memalign a s r :
    r <> 0 ->
    fatal [Sys (Posix_memalign a s) r; Perror "Memalign failed"; Exit (-1)]
| fatal_open p fl m :
    fatal [Sys (Open p fl m) (-1); Perror "Opening file failed"; Exit (-1)]
| fatal_write fd count r :
    r <> count ->
    fatal [Sys (Write fd count) r; Perror "Initial Write"; Exit (-1)]
| fatal_pwrite fd count off r :
    r <> count ->
    fatal [Sys (Pwrite fd count off) r; Perror "Write"; Exit (-1)]
| fatal_pread fd count off r :
    wrap32 r <> count ->
    fatal [Sys (Pread fd count off) r;
           Printf (ShortRead count (to_int32 (wrap32 r)));
           Perror "Read"; Exit (-1)].

(** A log that is accepted up to a fatal call and ends with it. *)
Definition stopped (l : list Event) : Prop :=
  exists pre tail, l = pre ++ tail /\ Forall accepted pre /\ fatal tail.

(** A platform on which every [pwrite] is short. *)
Definition short_writes : Env :=
  mkEnv (fun n c => match c with Pwrite _ _ _ => 0 | _ => ideal_sys n c end)
        (clock ideal).

(** A platform on which no memory can be allocated. *)
Definition no_memory : Env :=
  mkEnv (fun n c => match c with Posix_memalign _ _ => 12 | _ => ideal_sys n c end)
        (clock ideal).

(** The two readings around read [j] of a size whose loop starts at counter
    reading [t]. *)
Definition read_delta (env : Env) (t j : nat) : Z :=
  rd env (t + 2 * j + 1) - rd env (t + 2 * j).

(** * Arithmetic of the configured sweep *)

Lemma exp_cases (e : Z) :
  minExp <= e <= maxExp ->
  In e [9; 10; 11; 12; 13; 14; 15; 16; 17; 18; 19; 20; 21; 22; 23; 24; 25; 26; 27; 28].
Proof.
  unfold minExp, maxExp. intros H. simpl.
  assert (e = 9 \/ e = 10 \/ e = 11 \/ e = 12 \/ e = 13 \/ e = 14 \/ e = 15
          \/ e = 16 \/ e = 17 \/ e = 18 \/ e = 19 \/ e = 20 \/ e = 21 \/ e = 22
          \/ e = 23 \/ e = 24 \/ e = 25 \/ e = 26 \/ e = 27 \/ e = 28) by lia.
  intuition.
Qed.

(** Splits a goal about an exponent of the sweep into its twenty cases. *)
Ltac each_exp H :=
  apply exp_cases in H; simpl in H;
  repeat (destruct H as [H | H]; [subst | ]); [.. | contradiction].

Lemma writeSize_pow2 (e : Z) :
  minExp <= e <= maxExp -> wrap32 (Z.shiftl 1 e) = 2 ^ e.
Proof. intros H. each_exp H; reflexivity. Qed.

Lemma repCount_pos (size : Z) : 0 < repCount size.
Proof. unfold repCount. destruct (size >? smallBigThreshold); reflexivity. Qed.

Lemma readMaxSize_val : readMaxSize = 805306368.
Proof. reflexivity. Qed.

Lemma pow2_inj (a b : Z) : 0 <= a -> 0 <= b -> 2 ^ a = 2 ^ b -> a = b.
Proof.
  intros Ha Hb H.
  destruct (Z.lt_trichotomy a b) as [L | [E | L]]; [ | exact E | ].
  - apply (Z.pow_lt_mono_r 2) in L; lia.
  - apply (Z.pow_lt_mono_r 2) in L; lia.
Qed.

(** Clearing the low nine bits in [uint32_t] and reading the result back as
    an [int] is clearing them in the integers, below [2^31]. *)
Lemma mask512 (x : Z) :
  0 <= x < 2 ^ 31 ->
  to_int32 (Z.land (wrap32 x) (wrap32 (Z.lnot (512 - 1)))) = Z.land x (Z.lnot 511).
Proof.
  intros Hx.
  assert (E : Z.land x (Z.lnot 511) = 512 * (x / 512)).
  { rewrite <- Z.ldiff_land. change 511 with (Z.ones 9).
    rewrite Z.ldiff_ones_r by lia.
    rewrite Z.shiftl_mul_pow2, Z.shiftr_div_pow2 by lia.
    change (2 ^ 9) with 512. lia. }
  assert (B : 0 <= 512 * (x / 512) <= x).
  { pose proof (Z.mul_div_le x 512 ltac:(lia)).
    pose proof (Z.div_pos x 512 ltac:(lia) ltac:(lia)). lia. }
  unfold wrap32. change (512 - 1) with 511.
  rewrite (Z.mod_small x) by lia.
  rewrite <- (Z.land_ones (Z.lnot 511)) by lia.
  rewrite Z.land_assoc, Z.land_ones by lia.
  rewrite E. unfold to_int32.
  rewrite (Z.mod_small (512 * (x / 512))) by lia.
  rewrite Z.mod_small by lia. lia.
Qed.

Lemma mask512_spec (x : Z) :
  0 <= x ->
  Z.land x (Z.lnot 511) = x - x mod 512 /\
  (512 | Z.land x (Z.lnot 511)) /\
  0 <= Z.land x (Z.lnot 511) <= x.
Proof.
  intros Hx.
  assert (E : Z.land x (Z.lnot 511) = 512 * (x / 512)).
  { rewrite <- Z.ldiff_land. change 511 with (Z.ones 9).
    rewrite Z.ldiff_ones_r by lia.
    rewrite Z.shiftl_mul_pow2, Z.shiftr_div_pow2 by lia.
    change (2 ^ 9) with 512. lia. }
  rewrite E. pose proof (Z.div_mod x 512 ltac:(lia)).
  pose proof (Z.mod_pos_bound x 512 ltac:(lia)).
  split; [lia | split; [exists (x / 512); lia | lia]].
Qed.

(** * Reasoning about runs *)

#[local] Arguments maxSize : simpl never.
#[local] Arguments readMaxSize : simpl never.
#[local] Arguments repCount : simpl never.
#[local] Arguments wrap32 : simpl never.
#[local] Arguments advance : simpl never.
#[local] Arguments wrap64 : simpl never.
#[local] Arguments to_int32 : simpl never.
#[local] Arguments read_offset : simpl never.
#[local] Arguments Z.lor : simpl never.
#[local] Arguments Z.shiftl : simpl never.
#[local] Arguments Z.to_nat : simpl never.
#[local] Arguments Z.add : simpl never.
#[local] Arguments Z.sub : simpl never.
#[local] Arguments Z.mul : simpl never.
#[local] Arguments Z.div : simpl never.
#[local] Arguments Z.eqb : simpl never.

(** The loop rule: an invariant [I] indexed by the loop counter and the
    loop-carried variables, and a condition [E] established by every exit. *)
Lemma for_loop_inv {A} (env : Env) (body : Z -> A -> M A)
    (I : Z -> A -> World -> Prop) (E : Z -> World -> Prop) :
  forall n i a w,
    (forall j a w, i <= j < i + Z.of_nat n -> I j a w ->
       match body j a env w with
       | (Done a', w') => I (j + 1) a' w'
       | (Exited s, w') => E s w'
       end) ->
    I i a w ->
    match for_loop n i body a env w with
    | (Done a', w') => I (i + Z.of_nat n) a' w'
    | (Exited s, w') => E s w'
    end.
Proof.
  induction n as [| n IH]; intros i a w Hbody Hi.
  - replace (i + Z.of_nat 0) with i by lia. exact Hi.
  - pose proof (Hbody i a w ltac:(lia) Hi) as Hstep.
    replace (i + Z.of_nat (S n)) with ((i + 1) + Z.of_nat n) by lia.
    cbn [for_loop]. unfold bind.
    destruct (body i a env w) as [[a' | s] w']; [ | exact Hstep].
    apply IH; [ | exact Hstep].
    intros j a0 w0 Hj. apply Hbody. lia.
Qed.

(** The same rule with the postcondition weakened to [Q]. *)
Lemma for_loop_rule {A} (env : Env) (body : Z -> A -> M A)
    (I : Z -> A -> World -> Prop) (Q : A -> World -> Prop)
    (E : Z -> World -> Prop) (n : nat) (i : Z) (a : A) (w : World) :
  I i a w ->
  (forall j a w, i <= j < i + Z.of_nat n -> I j a w ->
     match body j a env w with
     | (Done a', w') => I (j + 1) a' w'
     | (Exited s, w') => E s w'
     end) ->
  (forall a w, I (i + Z.of_nat n) a w -> Q a w) ->
  match for_loop n i body a env w with
  | (Done a', w') => Q a' w'
  | (Exited s, w') => E s w'
  end.
Proof.
  intros Hi Hbody HQ.
  pose proof (for_loop_inv env body I E n i a w Hbody Hi) as L.
  destruct (for_loop n i body a env w) as [[a' | s] w']; auto.
Qed.

(** Case analysis on the test of the first conditional of the goal. *)
Ltac case_if :=
  match goal with
  | |- context [if ?b then _ else _] => destruct b eqn:?
  end.

(** Applies the loop rule to the loop of the goal, with invariant [I],
    postcondition [Q] and exit condition [E]; the continuation then has the
    loop's outcome and the rule's conclusion [L] for it. *)
Ltac loop_rule Inv Post Exc :=
  match goal with
  | |- context [for_loop ?n ?i ?b ?a ?env ?w0] =>
      let L := fresh "L" in
      assert (L : match for_loop n i b a env w0 with
                  | (Done a', w') => Post a' w'
                  | (Exited s, w') => Exc s w'
                  end);
      [ apply for_loop_rule with (I := Inv)
      | destruct (for_loop n i b a env w0) as [[? | ?] ?] ]
  end.

Ltac case_loop :=
  match goal with
  | |- context [for_loop ?n ?i ?b ?a ?env ?w] =>
      destruct (for_loop n i b a env w) as [[? | ?] ?]
  end.

(** What one repetition of the write loop does. *)
Lemma write_rep_eq (env : Env) (fd size i : Z) (v : WriteVars) (w : World) :
  write_rep fd size i v env w =
  let r := sys env (calls w) (Pwrite fd size (filePos v)) in
  if size =? r then
    (Done (mkWriteVars (advance (filePos v) size)
             (wrap64 (writeCycles v
                      + wrap64 (rd env (S (ticks w)) - rd env (ticks w))))
             (wrap64 (fsyncCycles v
                      + wrap64 (rd env (S (S (ticks w))) - rd env (S (ticks w)))))),
     mkWorld (S (S (calls w))) (S (S (S (ticks w))))
       (log w ++ [Sys (Pwrite fd size (filePos v)) r;
                  Sys (Fsync fd) (sys env (S (calls w)) (Fsync fd))]))
  else
    (Exited (-1),
     mkWorld (S (calls w)) (S (ticks w))
       (log w ++ [Sys (Pwrite fd size (filePos v)) r; Perror "Write"; Exit (-1)])).
Proof.
  unfold write_rep, bind, rdtsc, call, perror, emit, exit, ret, rd. cbn.
  case_if; cbn; rewrite <- !app_assoc; reflexivity.
Qed.

(** What one repetition of the read loop does. *)
Lemma read_rep_eq (env : Env) (fd size incr i cyc : Z) (w : World) :
  read_rep fd size incr i cyc env w =
  let r := sys env (calls w) (Pread fd size (read_offset i incr)) in
  if size =? wrap32 r then
    (Done (wrap64 (cyc + wrap64 (rd env (S (ticks w)) - rd env (ticks w)))),
     mkWorld (S (calls w)) (S (S (ticks w)))
       (log w ++ [Sys (Pread fd size (read_offset i incr)) r]))
  else
    (Exited (-1),
     mkWorld (S (calls w)) (S (ticks w))
       (log w ++ [Sys (Pread fd size (read_offset i incr)) r;
                  Printf (ShortRead size (to_int32 (wrap32 r)));
                  Perror "Read"; Exit (-1)])).
Proof.
  unfold read_rep, bind, rdtsc, call, printf, perror, emit, exit, ret, rd. cbn.
  case_if; cbn; rewrite <- ?app_assoc; reflexivity.
Qed.

(** What the body of the write sweep does for one exponent, in terms of its
    loop of repetitions. *)
Lemma write_size_eq (env : Env) (f : string) (fl e : Z) (w : World) :
  write_size f fl e tt env w =
  let op := Open f (Z.lor (Z.lor O_WRONLY O_CREAT) fl) 438 in
  let fd := sys env (calls w) op in
  if -1 =? fd then
    (Exited (-1),
     mkWorld (S (calls w)) (ticks w)
       (log w ++ [Sys op fd; Perror "Opening file failed"; Exit (-1)]))
  else
    let size := wrap32 (Z.shiftl 1 e) in
    match for_loop (Z.to_nat (repCount size)) 0 (write_rep fd size)
            (mkWriteVars 0 0 0) env
            (mkWorld (S (calls w)) (ticks w) (log w ++ [Sys op fd])) with
    | (Done v, w') =>
        (Done tt,
         mkWorld (S (S (calls w'))) (ticks w')
           (log w' ++ [Sys (Close fd) (sys env (calls w') (Close fd));
                       Sys (Remove f) (sys env (S (calls w')) (Remove f));
                       Printf (write_row size (repCount size) v)]))
    | (Exited s, w') => (Exited s, w')
    end.
Proof.
  unfold write_size, bind, call, printf, perror, emit, exit, ret. cbn.
  case_if; cbn.
  - rewrite <- !app_assoc. reflexivity.
  - case_loop; [ | reflexivity].
    rewrite <- !app_assoc. reflexivity.
Qed.

(** What the body of the read sweep does for one exponent. *)
Lemma read_size_eq (env : Env) (fd e : Z) (w : World) :
  read_size fd e tt env w =
  let size := wrap32 (Z.shiftl 1 e) in
  let incr := wrap32 (readMaxSize / repCount size) in
  match for_loop (Z.to_nat (repCount size)) 0 (read_rep fd size incr) 0 env w with
  | (Done cyc, w') =>
      (Done tt,
       mkWorld (calls w') (ticks w')
         (log w' ++ [Printf (read_row size (repCount size) cyc)]))
  | (Exited s, w') => (Exited s, w')
  end.
Proof.
  unfold read_size, bind, printf, emit. cbn.
  case_loop; reflexivity.
Qed.

Lemma benchmark_write_eq (env : Env) (f : string) (c : option string) (fl : Z)
    (w : World) :
  benchmark_write f c fl env w =
  let op := Posix_memalign 512 maxSize in
  let m := sys env (calls w) op in
  if m =? 0 then
    match for_loop (Z.to_nat (maxExp + 1 - minExp)) minExp (write_size f fl) tt env
            (mkWorld (S (calls w)) (ticks w)
               (log w ++ write_header f c ++ [Sys op m])) with
    | (Done _, w') =>
        (Done tt, mkWorld (calls w') (ticks w') (log w' ++ [Printf Blank; Free]))
    | (Exited s, w') => (Exited s, w')
    end
  else
    (Exited (-1),
     mkWorld (S (calls w)) (ticks w)
       (log w ++ write_header f c
          ++ [Sys op m; Perror "Memalign failed"; Exit (-1)])).
Proof.
  unfold benchmark_write, write_header, print_comment, bind, call, printf,
    perror, emit, exit, ret.
  destruct c as [c |]; cbn;
    (case_if; cbn;
     [ rewrite <- !app_assoc; cbn; case_loop; [ | reflexivity];
       rewrite <- !app_assoc; reflexivity
     | rewrite <- !app_assoc; reflexivity ]).
Qed.

Lemma benchmark_read_eq (env : Env) (f : string) (c : option string) (fl : Z)
    (w : World) :
  benchmark_read f c fl env w =
  let al := Posix_memalign 512 readMaxSize in
  let m := sys env (calls w) al in
  let op := Open f (Z.lor (Z.lor O_RDWR O_CREAT) fl) 438 in
  let fd := sys env (S (calls w)) op in
  let wr := Write fd readMaxSize in
  let n := sys env (S (S (calls w))) wr in
  let fs := Fsync fd in
  let pre := log w ++ read_header f c in
  if m =? 0 then
    if -1 =? fd then
      (Exited (-1),
       mkWorld (S (S (calls w))) (ticks w)
         (pre ++ [Sys al m; Sys op fd; Perror "Opening file failed"; Exit (-1)]))
    else if readMaxSize =? n then
      match for_loop (Z.to_nat (maxExp + 1 - minExp)) minExp (read_size fd) tt env
              (mkWorld (S (S (S (S (calls w))))) (ticks w)
                 (pre ++ [Sys al m; Sys op fd; Sys wr n;
                          Sys fs (sys env (S (S (S (calls w)))) fs)])) with
      | (Done _, w') =>
          (Done tt,
           mkWorld (S (S (calls w'))) (ticks w')
             (log w' ++ [Sys (Close fd) (sys env (calls w') (Close fd));
                         Sys (Remove f) (sys env (S (calls w')) (Remove f));
                         Printf Blank; Free]))
      | (Exited s, w') => (Exited s, w')
      end
    else
      (Exited (-1),
       mkWorld (S (S (S (calls w)))) (ticks w)
         (pre ++ [Sys al m; Sys op fd; Sys wr n; Perror "Initial Write"; Exit (-1)]))
  else
    (Exited (-1),
     mkWorld (S (calls w)) (ticks w)
       (pre ++ [Sys al m; Perror "Memalign failed"; Exit (-1)])).
Proof.
  unfold benchmark_read, read_header, print_comment, bind, call, printf,
    perror, emit, exit, ret.
  destruct c as [c |]; cbn;
    (case_if; cbn;
     [ case_if; cbn;
       [ rewrite <- !app_assoc; reflexivity
       | case_if; cbn;
         [ rewrite <- !app_assoc; cbn; case_loop; [ | reflexivity];
           rewrite <- !app_assoc; reflexivity
         | rewrite <- !app_assoc; reflexivity ] ]
     | rewrite <- !app_assoc; reflexivity ]).
Qed.

(** * Where the transfers go *)

Lemma first_n_S (f : Z -> Z) (m : nat) :
  first_n f (S m) = first_n f m ++ [f (Z.of_nat m)].
Proof. unfold first_n. rewrite seq_S, map_app. reflexivity. Qed.

Lemma first_n_length (f : Z -> Z) (m : nat) : List.length (first_n f m) = m.
Proof. unfold first_n. rewrite length_map, length_seq. reflexivity. Qed.

Lemma pwrite_offsets_app (size : Z) (l l' : list Event) :
  pwrite_offsets size (l ++ l') = pwrite_offsets size l ++ pwrite_offsets size l'.
Proof. apply flat_map_app. Qed.

Lemma pread_offsets_app (size : Z) (l l' : list Event) :
  pread_offsets size (l ++ l') = pread_offsets size l ++ pread_offsets size l'.
Proof. apply flat_map_app. Qed.

Lemma pow2_eqb (a b : Z) :
  0 <= a -> 0 <= b -> (2 ^ a =? 2 ^ b) = (a =? b).
Proof.
  intros Ha Hb. destruct (Z.eqb_spec a b) as [-> | N].
  - apply Z.eqb_refl.
  - apply Z.eqb_neq. intros H. apply N. apply pow2_inj; assumption.
Qed.

Lemma progress_next proj off e l :
  progress proj off e (Z.to_nat (repCount (2 ^ e))) l ->
  progress proj off (e + 1) 0 l.
Proof.
  intros H e' He'. rewrite (H e' He').
  destruct (Z.ltb_spec e' e), (Z.ltb_spec e' (e + 1)), (Z.eqb_spec e' e),
    (Z.eqb_spec e' (e + 1)); subst; try lia; reflexivity.
Qed.

Lemma progress_quiet proj off e k l evs :
  (forall size l l', proj size (l ++ l') = proj size l ++ proj size l') ->
  (forall size, proj size evs = []) ->
  progress proj off e k l -> progress proj off e k (l ++ evs).
Proof.
  intros Happ Hq H e' He'. rewrite Happ, Hq, app_nil_r. apply H, He'.
Qed.

Lemma progress_step proj off e k l evs :
  (forall size l l', proj size (l ++ l') = proj size l ++ proj size l') ->
  minExp <= e <= maxExp ->
  (forall e', minExp <= e' <= maxExp ->
     proj (2 ^ e') evs = if e' =? e then [off e (Z.of_nat k)] else []) ->
  progress proj off e k l -> progress proj off e (S k) (l ++ evs).
Proof.
  intros Happ He Hev H e' He'. rewrite Happ, (H e' He'), (Hev e' He').
  destruct (Z.ltb_spec e' e), (Z.eqb_spec e' e); subst; try lia.
  - apply app_nil_r.
  - rewrite first_n_S. reflexivity.
  - reflexivity.
Qed.

Lemma progress_offsets_upto proj off e k l :
  (k <= Z.to_nat (repCount (2 ^ e)))%nat ->
  progress proj off e k l -> offsets_upto proj off false l.
Proof.
  intros Hk H e' He'. rewrite (H e' He').
  destruct (Z.ltb_spec e' e); [ | destruct (Z.eqb_spec e' e)].
  - eexists; split; [ | split; [discriminate | reflexivity]]. lia.
  - subst. exists k. split; [exact Hk | split; [discriminate | reflexivity]].
  - exists 0%nat. split; [lia | split; [discriminate | reflexivity]].
Qed.

Lemma progress_finished proj off l :
  progress proj off (maxExp + 1) 0 l -> offsets_upto proj off true l.
Proof.
  intros H e' He'. rewrite (H e' He').
  destruct (Z.ltb_spec e' (maxExp + 1)); [ | lia].
  eexists; split; [ | split; reflexivity]. lia.
Qed.

(** ** The write sweep *)

Lemma write_extent (e : Z) :
  minExp <= e <= maxExp -> repCount (2 ^ e) * 2 ^ e <= 3 * 2 ^ 28.
Proof. intros H. each_exp H; vm_compute; discriminate. Qed.

Lemma write_pos_no_wrap (e j : Z) :
  minExp <= e <= maxExp -> 0 <= j < repCount (2 ^ e) ->
  advance (j * 2 ^ e) (2 ^ e) = (j + 1) * 2 ^ e.
Proof.
  intros He Hj. pose proof (write_extent e He) as Hx.
  assert (0 < 2 ^ e) by (apply Z.pow_pos_nonneg; unfold minExp in He; lia).
  unfold advance, wrap32. rewrite Z.mod_small; [lia | ].
  change (2 ^ 28) with 268435456 in Hx. change (2 ^ 32) with 4294967296.
  nia.
Qed.

(** The write sweep as a transition system over logs.  [J e] holds between
    sizes, before exponent [e]; [K e fd k] inside exponent [e], with
    descriptor [fd], before repetition [k]; [E] at every exit and [Q] at the
    end.  The premises are the transitions of the program, each with the
    events it appends. *)
Lemma write_sweep_rule (f : string) (c : option string) (fl : Z)
    (J : Z -> list Event -> Prop) (K : Z -> Z -> Z -> list Event -> Prop)
    (E Q : list Event -> Prop) (env : Env) (w : World) :
  let al := Posix_memalign 512 maxSize in
  let op := Open f (Z.lor (Z.lor O_WRONLY O_CREAT) fl) 438 in
  let l0 := log w ++ write_header f c in
  J minExp (l0 ++ [Sys al 0]) ->
  (forall m, m <> 0 ->
     E (l0 ++ [Sys al m; Perror "Memalign failed"; Exit (-1)])) ->
  (forall e l fd, minExp <= e <= maxExp -> J e l -> fd <> -1 ->
     K e fd 0 (l ++ [Sys op fd])) ->
  (forall e l, minExp <= e <= maxExp -> J e l ->
     E (l ++ [Sys op (-1); Perror "Opening file failed"; Exit (-1)])) ->
  (forall e fd k l r, minExp <= e <= maxExp -> 0 <= k < repCount (2 ^ e) ->
     K e fd k l ->
     K e fd (k + 1)
       (l ++ [Sys (Pwrite fd (2 ^ e) (k * 2 ^ e)) (2 ^ e); Sys (Fsync fd) r])) ->
  (forall e fd k l r, minExp <= e <= maxExp -> 0 <= k < repCount (2 ^ e) ->
     K e fd k l -> r <> 2 ^ e ->
     E (l ++ [Sys (Pwrite fd (2 ^ e) (k * 2 ^ e)) r; Perror "Write"; Exit (-1)])) ->
  (forall e fd l r1 r2 v, minExp <= e <= maxExp ->
     K e fd (repCount (2 ^ e)) l ->
     J (e + 1)
       (l ++ [Sys (Close fd) r1; Sys (Remove f) r2;
              Printf (write_row (2 ^ e) (repCount (2 ^ e)) v)])) ->
  (forall l, J (maxExp + 1) l -> Q (l ++ [Printf Blank; Free])) ->
  match benchmark_write f c fl env w with
  | (Done _, w') => Q (log w')
  | (Exited s, w') => s = -1 /\ E (log w')
  end.
Proof.
  intros al op l0 Hinit Hmem Hopen Hopenf Hrep Hrepf Hclose Hend.
  rewrite benchmark_write_eq. cbn zeta. fold al. case_if.
  - apply Z.eqb_eq in Heqb. rewrite Heqb.
    loop_rule (fun e (_ : unit) w => minExp <= e <= maxExp + 1 /\ J e (log w))
              (fun (_ : unit) w => J (maxExp + 1) (log w))
              (fun s w => s = -1 /\ E (log w)).
    + cbn [log]. split; [unfold minExp, maxExp; lia | ].
      unfold l0 in Hinit. rewrite <- app_assoc in Hinit. exact Hinit.
    + intros e [] w1 He (_ & HJ).
      assert (He' : minExp <= e <= maxExp) by (unfold minExp, maxExp in *; lia).
      rewrite write_size_eq. cbn zeta. fold op.
      rewrite writeSize_pow2 by assumption.
      case_if.
      * apply Z.eqb_eq in Heqb0. rewrite <- Heqb0. cbn [log].
        split; [reflexivity | apply (Hopenf e); assumption].
      * apply Z.eqb_neq in Heqb0.
        pose proof (repCount_pos (2 ^ e)) as Hc.
        set (fd := sys env (calls w1) op) in *.
        loop_rule (fun k v w => 0 <= k /\ filePos v = k * 2 ^ e /\ K e fd k (log w))
                  (fun (_ : WriteVars) w => K e fd (repCount (2 ^ e)) (log w))
                  (fun s w => s = -1 /\ E (log w)).
        -- cbn [log filePos]. split; [lia | split; [lia | ]].
           apply Hopen; [assumption | assumption | lia].
        -- intros k v w2 Hk (Hk0 & Hpos & HK).
           rewrite write_rep_eq. cbn zeta. rewrite Hpos. case_if; cbn [log filePos].
           ++ apply Z.eqb_eq in Heqb1. rewrite <- Heqb1.
              split; [lia | split; [apply write_pos_no_wrap; [assumption | lia] | ]].
              apply Hrep; [assumption | lia | assumption].
           ++ apply Z.eqb_neq in Heqb1. split; [reflexivity | ].
              apply Hrepf; [assumption | lia | assumption | congruence].
        -- intros v w2 (_ & _ & HK). rewrite Z.add_0_l, Z2Nat.id in HK by lia.
           exact HK.
        -- cbn [log]. split; [lia | ]. apply Hclose; assumption.
        -- exact L.
    + intros [] w1 (_ & HJ).
      replace (minExp + Z.of_nat (Z.to_nat (maxExp + 1 - minExp)))
        with (maxExp + 1) in HJ by (unfold minExp, maxExp; lia).
      exact HJ.
    + cbn [log]. apply Hend. exact L.
    + exact L.
  - apply Z.eqb_neq in Heqb. cbn [log]. split; [reflexivity | ].
    unfold l0 in Hmem. specialize (Hmem _ Heqb).
    rewrite <- app_assoc in Hmem. exact Hmem.
Qed.

(** ** The read sweep *)

Lemma repCount_cases (size : Z) :
  repCount size = smallCount \/ repCount size = largeCount.
Proof. unfold repCount. destruct (size >? smallBigThreshold); auto. Qed.

Lemma read_stride_bounds (size k : Z) :
  0 <= k < repCount size ->
  wrap32 (readMaxSize / repCount size) = readMaxSize / repCount size /\
  0 <= k * (readMaxSize / repCount size)
    <= (repCount size - 1) * (readMaxSize / repCount size) /\
  (repCount size - 1) * (readMaxSize / repCount size) < 2 ^ 31.
Proof.
  intros Hk. rewrite readMaxSize_val.
  destruct (repCount_cases size) as [Hc | Hc]; rewrite Hc in *;
    unfold smallCount, largeCount in *.
  - change (805306368 / 100) with 8053063. change (2 ^ 31) with 2147483648.
    split; [reflexivity | lia].
  - change (805306368 / 3) with 268435456. change (2 ^ 31) with 2147483648.
    split; [reflexivity | lia].
Qed.

Lemma read_offset_eq (e k : Z) :
  0 <= k < repCount (2 ^ e) ->
  read_offset k (wrap32 (readMaxSize / repCount (2 ^ e))) = read_at e k.
Proof.
  intros Hk. destruct (read_stride_bounds (2 ^ e) k Hk) as (-> & Hb & Hlt).
  unfold read_offset, read_at. apply mask512. lia.
Qed.

(** The read sweep as a transition system over logs; [J fd e] holds before
    exponent [e] and [K fd e k] before repetition [k] of it, [fd] being the
    descriptor of the pre-populated file. *)
Lemma read_sweep_rule (f : string) (c : option string) (fl : Z)
    (J : Z -> Z -> list Event -> Prop) (K : Z -> Z -> Z -> list Event -> Prop)
    (E Q : list Event -> Prop) (env : Env) (w : World) :
  let al := Posix_memalign 512 readMaxSize in
  let op := Open f (Z.lor (Z.lor O_RDWR O_CREAT) fl) 438 in
  let l0 := log w ++ read_header f c in
  (forall fd r, fd <> -1 ->
     J fd minExp
       (l0 ++ [Sys al 0; Sys op fd; Sys (Write fd readMaxSize) readMaxSize;
               Sys (Fsync fd) r])) ->
  (forall m, m <> 0 ->
     E (l0 ++ [Sys al m; Perror "Memalign failed"; Exit (-1)])) ->
  E (l0 ++ [Sys al 0; Sys op (-1); Perror "Opening file failed"; Exit (-1)]) ->
  (forall fd n, fd <> -1 -> n <> readMaxSize ->
     E (l0 ++ [Sys al 0; Sys op fd; Sys (Write fd readMaxSize) n;
               Perror "Initial Write"; Exit (-1)])) ->
  (forall fd e l, minExp <= e <= maxExp -> J fd e l -> K fd e 0 l) ->
  (forall fd e k l r, minExp <= e <= maxExp -> 0 <= k < repCount (2 ^ e) ->
     K fd e k l -> wrap32 r = 2 ^ e ->
     K fd e (k + 1) (l ++ [Sys (Pread fd (2 ^ e) (read_at e k)) r])) ->
  (forall fd e k l r, minExp <= e <= maxExp -> 0 <= k < repCount (2 ^ e) ->
     K fd e k l -> wrap32 r <> 2 ^ e ->
     E (l ++ [Sys (Pread fd (2 ^ e) (read_at e k)) r;
              Printf (ShortRead (2 ^ e) (to_int32 (wrap32 r)));
              Perror "Read"; Exit (-1)])) ->
  (forall fd e l cyc, minExp <= e <= maxExp -> K fd e (repCount (2 ^ e)) l ->
     J fd (e + 1) (l ++ [Printf (read_row (2 ^ e) (repCount (2 ^ e)) cyc)])) ->
  (forall fd l r1 r2, J fd (maxExp + 1) l ->
     Q (l ++ [Sys (Close fd) r1; Sys (Remove f) r2; Printf Blank; Free])) ->
  match benchmark_read f c fl env w with
  | (Done _, w') => Q (log w')
  | (Exited s, w') => s = -1 /\ E (log w')
  end.
Proof.
  intros al op l0 Hinit Hmem Hopenf Hwritef Henter Hrep Hrepf Hrow Hend.
  rewrite benchmark_read_eq. cbn zeta. fold al op l0.
  case_if; [apply Z.eqb_eq in Heqb; rewrite Heqb | ].
  2: { apply Z.eqb_neq in Heqb. cbn [log]. auto. }
  case_if; [apply Z.eqb_eq in Heqb0; rewrite <- Heqb0; cbn [log]; auto | ].
  apply Z.eqb_neq in Heqb0. set (fd := sys env (S (calls w)) op) in *.
  assert (Hfd : fd <> -1) by lia.
  case_if; [apply Z.eqb_eq in Heqb1; rewrite <- Heqb1 | ].
  2: { apply Z.eqb_neq in Heqb1. cbn [log]. split; [reflexivity | ].
       apply Hwritef; [assumption | congruence]. }
  loop_rule (fun e (_ : unit) w => minExp <= e <= maxExp + 1 /\ J fd e (log w))
            (fun (_ : unit) w => J fd (maxExp + 1) (log w))
            (fun s w => s = -1 /\ E (log w)).
  - cbn [log]. split; [unfold minExp, maxExp; lia | ]. apply Hinit, Hfd.
  - intros e [] w1 He (_ & HJ).
    assert (He' : minExp <= e <= maxExp) by (unfold minExp, maxExp in *; lia).
    rewrite read_size_eq. cbn zeta. rewrite writeSize_pow2 by assumption.
    pose proof (repCount_pos (2 ^ e)) as Hc.
    loop_rule (fun k (_ : Z) w => 0 <= k /\ K fd e k (log w))
              (fun (_ : Z) w => K fd e (repCount (2 ^ e)) (log w))
              (fun s w => s = -1 /\ E (log w)).
    + split; [lia | ]. apply Henter; assumption.
    + intros k cyc w2 Hk (Hk0 & HK).
      rewrite read_rep_eq. cbn zeta.
      rewrite read_offset_eq by lia.
      case_if; cbn [log].
      * apply Z.eqb_eq in Heqb2. split; [lia | ].
        apply Hrep; [assumption | lia | assumption | congruence].
      * apply Z.eqb_neq in Heqb2. split; [reflexivity | ].
        apply Hrepf; [assumption | lia | assumption | congruence].
    + intros cyc w2 (_ & HK). rewrite Z.add_0_l, Z2Nat.id in HK by lia. exact HK.
    + cbn [log]. split; [lia | ]. apply Hrow; assumption.
    + exact L.
  - intros [] w1 (_ & HJ).
    replace (minExp + Z.of_nat (Z.to_nat (maxExp + 1 - minExp)))
      with (maxExp + 1) in HJ by (unfold minExp, maxExp; lia).
    exact HJ.
  - cbn [log]. apply Hend. exact L.
  - exact L.
Qed.

(** * Offsets of the transfers, in every run *)

Lemma progress_start proj off l :
  (forall size, proj size l = []) -> progress proj off minExp 0 l.
Proof.
  intros H e He. rewrite H. destruct (Z.ltb_spec e minExp); [lia | ].
  destruct (e =? minExp); reflexivity.
Qed.

Lemma pwrite_offsets_one (e e' fd pos r : Z) (rest : list Event) :
  0 <= e -> 0 <= e' ->
  pwrite_offsets (2 ^ e') (Sys (Pwrite fd (2 ^ e) pos) r :: rest) =
  (if e' =? e then [pos] else []) ++ pwrite_offsets (2 ^ e') rest.
Proof.
  intros He He'. cbn [pwrite_offsets flat_map].
  rewrite pow2_eqb, Z.eqb_sym by assumption. reflexivity.
Qed.

Lemma pread_offsets_one (e e' fd pos r : Z) (rest : list Event) :
  0 <= e -> 0 <= e' ->
  pread_offsets (2 ^ e') (Sys (Pread fd (2 ^ e) pos) r :: rest) =
  (if e' =? e then [pos] else []) ++ pread_offsets (2 ^ e') rest.
Proof.
  intros He He'. cbn [pread_offsets flat_map].
  rewrite pow2_eqb, Z.eqb_sym by assumption. reflexivity.
Qed.

Ltac quiet := apply progress_quiet;
  [first [apply pwrite_offsets_app | apply pread_offsets_app]
  | try reflexivity | try assumption].

(** Every run of the write sweep, from a log without [pwrite]s: write [k]
    of each size goes to offset [k * size]. *)
Lemma benchmark_write_offsets (env : Env) (f : string) (c : option string)
    (fl : Z) (w : World) :
  (forall size, pwrite_offsets size (log w) = []) ->
  match benchmark_write f c fl env w with
  | (Done _, w') => offsets_upto pwrite_offsets write_offset true (log w')
  | (Exited s, w') =>
      s = -1 /\ offsets_upto pwrite_offsets write_offset false (log w')
  end.
Proof.
  intros Hw.
  assert (Hs : forall tail, (forall size, pwrite_offsets size tail = []) ->
            progress pwrite_offsets write_offset minExp 0
              ((log w ++ write_header f c) ++ tail)).
  { intros tail Ht. apply progress_start. intros size.
    rewrite !pwrite_offsets_app, Hw, Ht. destruct c; reflexivity. }
  assert (Hone : forall e fd k r tail, minExp <= e <= maxExp -> 0 <= k ->
            (forall size, pwrite_offsets size tail = []) ->
            forall e', minExp <= e' <= maxExp ->
            pwrite_offsets (2 ^ e') (Sys (Pwrite fd (2 ^ e) (k * 2 ^ e)) r :: tail) =
            if e' =? e then [write_offset e (Z.of_nat (Z.to_nat k))] else []).
  { intros e fd k r tail He Hk Ht e' He'. unfold minExp in *.
    rewrite pwrite_offsets_one, Ht, Z2Nat.id by lia. apply app_nil_r. }
  apply write_sweep_rule with
    (J := fun e l => progress pwrite_offsets write_offset e 0 l)
    (K := fun e _ k l => progress pwrite_offsets write_offset e (Z.to_nat k) l).
  - apply Hs. reflexivity.
  - intros m _. apply progress_offsets_upto with (e := minExp) (k := 0%nat); [lia | ].
    apply Hs. reflexivity.
  - intros e l fd He HJ _. quiet.
  - intros e l He HJ.
    apply progress_offsets_upto with (e := e) (k := 0%nat); [lia | ]. quiet.
  - intros e fd k l r He Hk HK.
    replace (Z.to_nat (k + 1)) with (S (Z.to_nat k)) by lia.
    apply progress_step; try assumption; [apply pwrite_offsets_app | ].
    apply Hone; [assumption | lia | reflexivity].
  - intros e fd k l r He Hk HK Hr.
    apply progress_offsets_upto with (e := e) (k := S (Z.to_nat k)); [lia | ].
    apply progress_step; try assumption; [apply pwrite_offsets_app | ].
    apply Hone; [assumption | lia | reflexivity].
  - intros e fd l r1 r2 v He HK. apply progress_next. quiet.
  - intros l HJ. apply progress_finished. quiet.
Qed.

(** Every run of the read sweep, from a log without [pread]s: read [k] of
    exponent [e] goes to offset [read_at e k]. *)
Lemma benchmark_read_offsets (env : Env) (f : string) (c : option string)
    (fl : Z) (w : World) :
  (forall size, pread_offsets size (log w) = []) ->
  match benchmark_read f c fl env w with
  | (Done _, w') => offsets_upto pread_offsets read_at true (log w')
  | (Exited s, w') => s = -1 /\ offsets_upto pread_offsets read_at false (log w')
  end.
Proof.
  intros Hw.
  assert (Hs : forall tail, (forall size, pread_offsets size tail = []) ->
            progress pread_offsets read_at minExp 0
              ((log w ++ read_header f c) ++ tail)).
  { intros tail Ht. apply progress_start. intros size.
    rewrite !pread_offsets_app, Hw, Ht. destruct c; reflexivity. }
  assert (Hf : forall tail, (forall size, pread_offsets size tail = []) ->
            offsets_upto pread_offsets read_at false
              ((log w ++ read_header f c) ++ tail)).
  { intros tail Ht.
    apply progress_offsets_upto with (e := minExp) (k := 0%nat); [lia | ].
    apply Hs, Ht. }
  assert (Hone : forall e fd k r tail, minExp <= e <= maxExp -> 0 <= k ->
            (forall size, pread_offsets size tail = []) ->
            forall e', minExp <= e' <= maxExp ->
            pread_offsets (2 ^ e') (Sys (Pread fd (2 ^ e) (read_at e k)) r :: tail) =
            if e' =? e then [read_at e (Z.of_nat (Z.to_nat k))] else []).
  { intros e fd k r tail He Hk Ht e' He'. unfold minExp in *.
    rewrite pread_offsets_one, Ht, Z2Nat.id by lia. apply app_nil_r. }
  apply read_sweep_rule with
    (J := fun _ e l => progress pread_offsets read_at e 0 l)
    (K := fun _ e k l => progress pread_offsets read_at e (Z.to_nat k) l).
  - intros fd r _. apply Hs. reflexivity.
  - intros m _. apply Hf. reflexivity.
  - apply Hf. reflexivity.
  - intros fd n _ _. apply Hf. reflexivity.
  - intros fd e l He HJ. exact HJ.
  - intros fd e k l r He Hk HK Hr.
    replace (Z.to_nat (k + 1)) with (S (Z.to_nat k)) by lia.
    apply progress_step; try assumption; [apply pread_offsets_app | ].
    apply Hone; [assumption | lia | reflexivity].
  - intros fd e k l r He Hk HK Hr.
    apply progress_offsets_upto with (e := e) (k := S (Z.to_nat k)); [lia | ].
    apply progress_step; try assumption; [apply pread_offsets_app | ].
    apply Hone; [assumption | lia | reflexivity].
  - intros fd e l cyc He HK. apply progress_next. quiet.
  - intros fd l r1 r2 HJ. apply progress_finished. quiet.
Qed.

(** * Failing fast *)

Lemma failure_split (tail l' post : list Event) (c : Call) (r : Z) :
  failure tail -> tail = l' ++ Sys c r :: post ->
  l' = [] /\
  match c with
  | Pwrite _ size _ => r <> size /\ post = [Perror "Write"; Exit (-1)]
  | Pread _ size _ =>
      wrap32 r <> size /\
      post = [Printf (ShortRead size (to_int32 (wrap32 r)));
              Perror "Read"; Exit (-1)]
  | _ => True
  end.
Proof.
  intros F Ht. destruct l' as [| x l'].
  - split; [reflexivity | ]. cbn in Ht.
    destruct F; inversion Ht; subst; auto.
    destruct c; try exact I; discriminate.
  - exfalso.
    assert (N : Forall (fun ev => forall c r, ev <> Sys c r) (tl tail))
      by (destruct F; repeat constructor; intros ? ?; discriminate).
    rewrite Ht in N. cbn in N. apply Forall_elt in N. apply (N c r). reflexivity.
Qed.

Lemma aborted_fail_fast (l : list Event) : aborted l -> fail_fast l.
Proof.
  intros (pre0 & tail & -> & Hpre & F).
  assert (G : forall pre c r post,
            pre0 ++ tail = pre ++ Sys c r :: post ->
            checked (Sys c r) \/ exists l', tail = l' ++ Sys c r :: post).
  { intros pre c r post Heq. apply app_eq_app in Heq.
    destruct Heq as (l' & [[-> Hl] | [-> Hl]]).
    - destruct l' as [| y l'].
      + right. exists []. symmetry. exact Hl.
      + inversion Hl; subst. apply Forall_elt in Hpre. left. exact Hpre.
    - right. exists l'. exact Hl. }
  split; intros pre fd size off r post Heq;
    (destruct (G _ _ _ _ Heq) as [H | (l' & Hl)]; [left; exact H | ]);
    destruct (failure_split _ _ _ _ _ F Hl) as (_ & _ & ->); right; reflexivity.
Qed.

Lemma aborted_intro (pre tail : list Event) :
  Forall checked pre -> failure tail -> aborted (pre ++ tail).
Proof. intros H F. exists pre, tail. auto. Qed.

Lemma aborted_shift (pre tail : list Event) (x : Event) :
  aborted ((pre ++ [x]) ++ tail) -> aborted (pre ++ x :: tail).
Proof. rewrite <- app_assoc. exact (fun H => H). Qed.

Lemma Forall_snoc_list {A} (P : A -> Prop) (l l' : list A) :
  Forall P l -> Forall P l' -> Forall P (l ++ l').
Proof. intros H H'. apply Forall_app. split; assumption. Qed.

Ltac checked_tail :=
  repeat (apply Forall_cons; [first [exact I | reflexivity | assumption] | ]);
  apply Forall_nil.

Lemma header_checked (l : list Event) (f : string) (c : option string) :
  Forall checked l ->
  Forall checked (l ++ write_header f c) /\ Forall checked (l ++ read_header f c).
Proof.
  intros H. split; apply Forall_snoc_list; try assumption;
    destruct c; checked_tail.
Qed.

Lemma benchmark_write_fail_fast (env : Env) (f : string) (c : option string)
    (fl : Z) (w : World) :
  Forall checked (log w) ->
  match benchmark_write f c fl env w with
  | (Done _, w') => Forall checked (log w')
  | (Exited s, w') => s = -1 /\ aborted (log w')
  end.
Proof.
  intros Hw. destruct (header_checked (log w) f c Hw) as (Hh & _).
  apply write_sweep_rule with
    (J := fun _ l => Forall checked l) (K := fun _ _ _ l => Forall checked l).
  - apply Forall_snoc_list; [assumption | checked_tail].
  - intros m Hm. apply aborted_intro; [assumption | apply fail_setup; reflexivity].
  - intros e l fd He HJ _. apply Forall_snoc_list; [assumption | checked_tail].
  - intros e l He HJ. apply aborted_intro; [assumption | apply fail_setup; reflexivity].
  - intros e fd k l r He Hk HK. apply Forall_snoc_list; [assumption | checked_tail].
  - intros e fd k l r He Hk HK Hr.
    apply aborted_intro; [assumption | apply fail_pwrite; exact Hr].
  - intros e fd l r1 r2 v He HK. apply Forall_snoc_list; [assumption | checked_tail].
  - intros l HJ. apply Forall_snoc_list; [assumption | checked_tail].
Qed.

Lemma benchmark_read_fail_fast (env : Env) (f : string) (c : option string)
    (fl : Z) (w : World) :
  Forall checked (log w) ->
  match benchmark_read f c fl env w with
  | (Done _, w') => Forall checked (log w')
  | (Exited s, w') => s = -1 /\ aborted (log w')
  end.
Proof.
  intros Hw. destruct (header_checked (log w) f c Hw) as (_ & Hh).
  apply read_sweep_rule with
    (J := fun _ _ l => Forall checked l) (K := fun _ _ _ l => Forall checked l).
  - intros fd r _. apply Forall_snoc_list; [assumption | checked_tail].
  - intros m Hm. apply aborted_intro; [assumption | apply fail_setup; reflexivity].
  - apply aborted_shift, aborted_intro; [ | apply fail_setup; reflexivity].
    apply Forall_snoc_list; [assumption | checked_tail].
  - intros fd n Hfd Hn.
    apply aborted_shift, aborted_shift, aborted_intro;
      [ | apply fail_setup; reflexivity].
    repeat (apply Forall_snoc_list; [ | checked_tail]). assumption.
  - intros fd e l He HJ. exact HJ.
  - intros fd e k l r He Hk HK Hr.
    apply Forall_snoc_list; [assumption | checked_tail].
  - intros fd e k l r He Hk HK Hr.
    apply aborted_intro; [assumption | apply fail_pread; exact Hr].
  - intros fd e l cyc He HK. apply Forall_snoc_list; [assumption | checked_tail].
  - intros fd l r1 r2 HJ. apply Forall_snoc_list; [assumption | checked_tail].
Qed.



(** At the threshold itself the strict test selects [smallCount]; the sizes
    of the sweeps are powers of two, and the threshold is none. *)
Lemma repCount_strict (size : Z) :
  size = smallBigThreshold -> repCount size = smallCount.
Proof. intros ->. reflexivity. Qed.

(** A [pread] answer within the range POSIX allows, [-1] or a count up to
    the size asked, is accepted by the [uint32_t] comparison of line 189 only
    if it is the size asked. *)
Lemma accepted_read (e r : Z) :
  minExp <= e <= maxExp -> wrap32 r = 2 ^ e -> -1 <= r <= 2 ^ e -> r = 2 ^ e.
Proof.
  intros He G B.
  assert (2 ^ e <= 2 ^ 28) by (apply Z.pow_le_mono_r; unfold maxExp in He; lia).
  change (2 ^ 28) with 268435456 in *.
  unfold wrap32 in G. change (2 ^ 32) with 4294967296 in G.
  destruct (Z.eq_dec r (-1)) as [-> | N].
  - change ((-1) mod 4294967296) with 4294967295 in G. lia.
  - rewrite Z.mod_small in G by lia. exact G.
Qed.

Lemma write_run_fail_fast (env : Env) (f : string) (c : option string) (fl : Z) :
  let wr := benchmark_write f c fl env start in
  forall pre fd size off r post,
    log (snd wr) = pre ++ Sys (Pwrite fd size off) r :: post ->
    r = size \/ (post = [Perror "Write"; Exit (-1)] /\ fst wr = Exited (-1)).
Proof.
  intros wr pre fd size off r post Heq.
  pose proof (benchmark_write_fail_fast env f c fl start (Forall_nil _)) as F.
  subst wr. destruct (benchmark_write f c fl env start) as [[[] | s] w];
    cbn [fst snd] in *.
  - left. rewrite Heq in F. apply Forall_elt in F. exact F.
  - destruct F as (-> & F).
    destruct (proj1 (aborted_fail_fast _ F) _ _ _ _ _ _ Heq) as [H | H]; auto.
Qed.

Lemma read_run_fail_fast (env : Env) (f : string) (c : option string) (fl : Z) :
  let rd := benchmark_read f c fl env start in
  forall pre fd size off r post,
    log (snd rd) = pre ++ Sys (Pread fd size off) r :: post ->
    wrap32 r = size \/
    (post = [Printf (ShortRead size (to_int32 (wrap32 r)));
             Perror "Read"; Exit (-1)] /\ fst rd = Exited (-1)).
Proof.
  intros rd pre fd size off r post Heq.
  pose proof (benchmark_read_fail_fast env f c fl start (Forall_nil _)) as F.
  subst rd. destruct (benchmark_read f c fl env start) as [[[] | s] w];
    cbn [fst snd] in *.
  - left. rewrite Heq in F. apply Forall_elt in F. exact F.
  - destruct F as (-> & F).
    destruct (proj2 (aborted_fail_fast _ F) _ _ _ _ _ _ Heq) as [H | H]; auto.
Qed.

Lemma finished_count proj off (l : list Event) (e : Z) :
  minExp <= e <= maxExp -> offsets_upto proj off true l ->
  List.length (proj (2 ^ e) l) = Z.to_nat (repCount (2 ^ e)).
Proof.
  intros He H. destruct (H e He) as (m & _ & Hd & ->).
  rewrite first_n_length. apply Hd. reflexivity.
Qed.

(** Finished or not, a run has at most the repetition count of transfers of
    each size. *)
Lemma started_count proj off (finished : bool) (l : list Event) (e : Z) :
  minExp <= e <= maxExp -> offsets_upto proj off finished l ->
  (List.length (proj (2 ^ e)%Z l) <= Z.to_nat (repCount (2 ^ e)))%nat.
Proof.
  intros He H. destruct (H e He) as (m & Hm & _ & ->).
  rewrite first_n_length. exact Hm.
Qed.

(** The transfers of one size in the runs of the two sweeps from the empty
    log: at most the repetition count, and exactly that many when the sweep
    finishes. *)
Lemma write_run_count (env : Env) (f : string) (c : option string) (fl e : Z) :
  minExp <= e <= maxExp ->
  let wr := benchmark_write f c fl env start in
  let n := List.length (pwrite_offsets (2 ^ e) (log (snd wr))) in
  (n <= Z.to_nat (repCount (2 ^ e)))%nat /\
  (fst wr = Done tt -> n = Z.to_nat (repCount (2 ^ e))).
Proof.
  intros He wr n.
  pose proof (benchmark_write_offsets env f c fl start (fun _ => eq_refl)) as O.
  subst n wr. destruct (benchmark_write f c fl env start) as [[[] | s] w];
    cbn [fst snd].
  - split; [apply started_count with (off := write_offset) (finished := true)
           | intros _; apply finished_count with (off := write_offset)];
      assumption.
  - destruct O as (_ & O).
    split; [apply started_count with (off := write_offset) (finished := false);
            assumption | discriminate].
Qed.

Lemma read_run_count (env : Env) (f : string) (c : option string) (fl e : Z) :
  minExp <= e <= maxExp ->
  let rd := benchmark_read f c fl env start in
  let n := List.length (pread_offsets (2 ^ e) (log (snd rd))) in
  (n <= Z.to_nat (repCount (2 ^ e)))%nat /\
  (fst rd = Done tt -> n = Z.to_nat (repCount (2 ^ e))).
Proof.
  intros He rd n.
  pose proof (benchmark_read_offsets env f c fl start (fun _ => eq_refl)) as O.
  subst n rd. destruct (benchmark_read f c fl env start) as [[[] | s] w];
    cbn [fst snd].
  - split; [apply started_count with (off := read_at) (finished := true)
           | intros _; apply finished_count with (off := read_at)];
      assumption.
  - destruct O as (_ & O).
    split; [apply started_count with (off := read_at) (finished := false);
            assumption | discriminate].
Qed.

(** * Accumulated cycles *)

Lemma wrap64_add (x y : Z) : wrap64 (wrap64 x + wrap64 y) = wrap64 (x + y).
Proof. unfold wrap64. symmetry. apply Z.add_mod. discriminate. Qed.

Lemma sum_upto_add (n : nat) (f g h : nat -> Z) :
  (forall j, f j + g j = h j) -> sum_upto n f + sum_upto n g = sum_upto n h.
Proof.
  intros H. induction n as [| n IH]; [reflexivity | ].
  cbn [sum_upto]. rewrite <- IH, <- H. ring.
Qed.

Lemma write_reps_cycles (env : Env) (fd size : Z) (n : nat) (w : World) :
  match for_loop n 0 (write_rep fd size) (mkWriteVars 0 0 0) env w with
  | (Done v, w') =>
      writeCycles v = wrap64 (sum_upto n (write_delta env (ticks w))) /\
      fsyncCycles v = wrap64 (sum_upto n (fsync_delta env (ticks w)))
  | (Exited _, _) => True
  end.
Proof.
  apply for_loop_rule with
    (I := fun j v w1 =>
            0 <= j /\ ticks w1 = (ticks w + 3 * Z.to_nat j)%nat /\
            writeCycles v = wrap64 (sum_upto (Z.to_nat j) (write_delta env (ticks w))) /\
            fsyncCycles v = wrap64 (sum_upto (Z.to_nat j) (fsync_delta env (ticks w)))).
  - cbn. repeat split; lia.
  - intros j v w1 Hj (Hj0 & Ht & Hw & Hf).
    rewrite write_rep_eq. cbn zeta. case_if; [ | exact I].
    cbn [ticks writeCycles fsyncCycles]. rewrite Hw, Hf, Ht.
    replace (Z.to_nat (j + 1)) with (S (Z.to_nat j)) by lia.
    cbn [sum_upto]. unfold write_delta, fsync_delta.
    replace (ticks w + 3 * Z.to_nat j + 1)%nat with (S (ticks w + 3 * Z.to_nat j)) by lia.
    replace (ticks w + 3 * Z.to_nat j + 2)%nat with (S (S (ticks w + 3 * Z.to_nat j))) by lia.
    rewrite !wrap64_add. repeat split; lia.
  - intros v w1 (_ & _ & Hw & Hf). rewrite Z.add_0_l, Nat2Z.id in Hw, Hf. auto.
Qed.

(** The row a finished size prints, with its three columns. *)
Lemma write_size_row (env : Env) (f : string) (fl e : Z) (w w' : World) :
  minExp <= e <= maxExp ->
  write_size f fl e tt env w = (Done tt, w') ->
  let S := 2 ^ e in
  let c := repCount S in
  let W := wrap64 (sum_upto (Z.to_nat c) (write_delta env (ticks w))) in
  let F := wrap64 (sum_upto (Z.to_nat c) (fsync_delta env (ticks w))) in
  exists pre,
    log w' =
    pre ++ [Printf (WriteRow S
                      (DDiv (DDiv (DOfInt S)
                                  (DDiv (DToSeconds (wrap64 (W + F))) (DOfInt c)))
                            D1e6)
                      (DDiv (DToSeconds W) (DOfInt c))
                      (DDiv (DToSeconds F) (DOfInt c)))].
Proof.
  intros He Hrun. cbn zeta. rewrite write_size_eq in Hrun. cbn zeta in Hrun.
  rewrite writeSize_pow2 in Hrun by assumption.
  destruct (-1 =? sys env (calls w) _); [discriminate | ].
  match type of Hrun with
  | context [for_loop ?n 0 (write_rep ?fd ?size) _ env ?w0] =>
      pose proof (write_reps_cycles env fd size n w0) as C;
      destruct (for_loop n 0 (write_rep fd size) (mkWriteVars 0 0 0) env w0)
        as [[v | s] w1]; [ | discriminate]
  end.
  cbn [ticks] in C. destruct C as (Hw & Hf).
  inversion Hrun; subst w'; clear Hrun. cbn [log].
  eexists (log w1 ++ [_; _]). rewrite <- app_assoc. cbn [app].
  unfold write_row. rewrite Hw, Hf. reflexivity.
Qed.

(** * The answers of [fsync] do not matter *)

Section FsyncIgnored.
Variable r : nat -> Z.
Variable env : Env.

Lemma indep_ret {A} (a : A) : indep r env (ret a).
Proof. intros w1 w2 H. split; [reflexivity | exact H]. Qed.

Lemma indep_bind {A B} (m : M A) (k : A -> M B) :
  indep r env m -> (forall a, indep r env (k a)) -> indep r env (bind m k).
Proof.
  intros Hm Hk w1 w2 H. unfold bind. specialize (Hm w1 w2 H).
  destruct (m (with_fsync r env) w1) as [[a1 | s1] w1'],
           (m env w2) as [[a2 | s2] w2'];
    destruct Hm as (E & Hs); cbn [fst snd] in *; try discriminate.
  - inversion E; subst. apply Hk. exact Hs.
  - inversion E; subst. split; [reflexivity | exact Hs].
Qed.

Lemma indep_emit (e : Event) : indep r env (emit e).
Proof.
  intros w1 w2 (Hc & Ht & Hl). split; [reflexivity | ].
  unfold emit, same_but_fsync. cbn. rewrite !map_app, Hl. auto.
Qed.

Lemma indep_call (c : Call) :
  match c with Fsync _ => False | _ => True end -> indep r env (call c).
Proof.
  intros Hc w1 w2 (Hn & Ht & Hl). unfold call, same_run, same_but_fsync.
  cbn [fst snd calls ticks log]. rewrite !map_app, Hl, Hn.
  destruct c; try contradiction; cbn; auto.
Qed.

(** The result of [fsync] is dropped by what follows it. *)
Lemma indep_fsync {B} (fd : Z) (k : M B) :
  indep r env k -> indep r env (bind (call (Fsync fd)) (fun _ => k)).
Proof.
  intros Hk w1 w2 (Hn & Ht & Hl). unfold bind, call. apply Hk.
  unfold same_but_fsync. cbn. rewrite !map_app, Hl. cbn. auto.
Qed.

Lemma indep_rdtsc : indep r env rdtsc.
Proof.
  intros w1 w2 (Hn & Ht & Hl). unfold rdtsc, same_run, same_but_fsync.
  cbn. rewrite Ht. auto.
Qed.

Lemma indep_exit {A} (s : Z) : indep r env (@exit A s).
Proof.
  intros w1 w2 (Hn & Ht & Hl). unfold exit, same_run, same_but_fsync.
  cbn. rewrite !map_app, Hl. auto.
Qed.

Lemma indep_if {A} (b : bool) (m1 m2 : M A) :
  indep r env m1 -> indep r env m2 -> indep r env (if b then m1 else m2).
Proof. destruct b; auto. Qed.

Lemma indep_for_loop {A} (n : nat) (body : Z -> A -> M A) :
  (forall i a, indep r env (body i a)) -> forall i a, indep r env (for_loop n i body a).
Proof.
  intros Hb. induction n as [| n IH]; intros i a; cbn [for_loop].
  - apply indep_ret.
  - apply indep_bind; [apply Hb | intros a'; apply IH].
Qed.

Ltac indep_step :=
  lazymatch goal with
  | |- indep _ _ (bind (call (Fsync _)) _) => apply indep_fsync
  | |- indep _ _ (bind _ _) => apply indep_bind; [ | intros ? ]
  | |- indep _ _ (ret _) => apply indep_ret
  | |- indep _ _ (emit _) => apply indep_emit
  | |- indep _ _ rdtsc => apply indep_rdtsc
  | |- indep _ _ (exit _) => apply indep_exit
  | |- indep _ _ (call _) => apply indep_call; exact I
  | |- indep _ _ (if _ then _ else _) => apply indep_if
  | |- indep _ _ (for_loop _ _ _ _) => apply indep_for_loop; intros ? ?
  end.

Lemma indep_write_rep (fd size i : Z) (v : WriteVars) :
  indep r env (write_rep fd size i v).
Proof. unfold write_rep, perror. repeat indep_step. Qed.

Lemma indep_read_rep (fd size incr i cyc : Z) : indep r env (read_rep fd size incr i cyc).
Proof. unfold read_rep, perror, printf. repeat indep_step. Qed.

Lemma indep_benchmark_write (f : string) (c : option string) (fl : Z) :
  indep r env (benchmark_write f c fl).
Proof.
  unfold benchmark_write, write_size, print_comment, perror, printf.
  destruct c; repeat first [apply indep_write_rep | indep_step].
Qed.

Lemma indep_benchmark_read (f : string) (c : option string) (fl : Z) :
  indep r env (benchmark_read f c fl).
Proof.
  unfold benchmark_read, read_size, print_comment, perror, printf.
  destruct c; repeat first [apply indep_read_rep | indep_step].
Qed.

Lemma indep_main (argv : list string) : indep r env (main argv).
Proof.
  unfold main, perror, printf.
  repeat first [apply indep_benchmark_write | apply indep_benchmark_read
               | indep_step].
Qed.
End FsyncIgnored.

(** * The whole program *)

Lemma main_eq (env : Env) (argv : list string) (w : World) :
  main argv env w =
  if 3 <=? Z.of_nat (List.length argv) then
    (Exited (-1), mkWorld (calls w) (ticks w) (log w ++ usage_log))
  else
    match benchmark_write (main_filename argv) main_comment main_flags env w with
    | (Done _, w1) =>
        match benchmark_read (main_filename argv) main_comment main_flags env w1 with
        | (Done _, w2) => (Done 0, w2)
        | (Exited s, w2) => (Exited s, w2)
        end
    | (Exited s, w1) => (Exited s, w1)
    end.
Proof.
  unfold main, main_filename, main_comment, main_flags, usage_log.
  destruct (3 <=? Z.of_nat (List.length argv)).
  - unfold bind, printf, emit, exit. cbn [calls ticks log].
    rewrite <- !app_assoc. reflexivity.
  - unfold bind at 1. unfold ret at 1. unfold bind.
    destruct (benchmark_write _ _ _ env w) as [[[] | s] w1]; [ | reflexivity].
    destruct (benchmark_read _ _ _ env w1) as [[[] | s] w2]; reflexivity.
Qed.

Lemma main_checked (env : Env) (argv : list string) :
  match main argv env start with
  | (Done _, w) => Forall checked (log w)
  | (Exited s, w) => s = -1 /\ ended_early (log w)
  end.
Proof.
  rewrite main_eq. case_if.
  - split; [reflexivity | right; reflexivity].
  - pose proof (benchmark_write_fail_fast env (main_filename argv) main_comment
                  main_flags start (Forall_nil _)) as FW.
    destruct (benchmark_write _ _ _ env start) as [[[] | s] w1].
    + pose proof (benchmark_read_fail_fast env (main_filename argv) main_comment
                    main_flags w1 FW) as FR.
      destruct (benchmark_read _ _ _ env w1) as [[[] | s] w2].
      * exact FR.
      * destruct FR as (-> & FR). split; [reflexivity | left; exact FR].
    + destruct FW as (-> & FW). split; [reflexivity | left; exact FW].
Qed.

Lemma checked_head (l : list Event) :
  Forall checked l ->
  match l with
  | Perror _ :: _ | Exit _ :: _ => False
  | _ => True
  end.
Proof.
  intros H. destruct l as [| [] l]; try exact I; inversion H; assumption.
Qed.

Lemma checked_no_fatal_fsync (l : list Event) :
  Forall checked l -> no_fatal_fsync l.
Proof.
  intros H pre fd r post ->. apply Forall_app in H. destruct H as (_ & H).
  inversion H; subst. apply checked_head. assumption.
Qed.

Lemma failure_head (tail : list Event) :
  failure tail ->
  exists c r rest,
    tail = Sys c r :: rest /\
    match c with Fsync _ => False | _ => True end /\
    Forall (fun ev => forall c r, ev <> Sys c r) rest.
Proof.
  intros F. destruct F.
  - exists c, r, [Perror msg; Exit (-1)].
    split; [reflexivity | split].
    + destruct c; try exact I; discriminate.
    + repeat constructor; intros ? ?; discriminate.
  - eexists _, _, _. split; [reflexivity | split; [exact I | ]].
    repeat constructor; intros ? ?; discriminate.
  - eexists _, _, _. split; [reflexivity | split; [exact I | ]].
    repeat constructor; intros ? ?; discriminate.
Qed.

Lemma aborted_no_fatal_fsync (l : list Event) : aborted l -> no_fatal_fsync l.
Proof.
  intros (pre0 & tail & -> & Hpre & F) pre fd r post Heq.
  destruct (failure_head tail F) as (c & rc & rest & -> & Hc & Hrest).
  apply app_eq_app in Heq. destruct Heq as (l' & [[-> Hl] | [-> Hl]]).
  - destruct l' as [| y l'].
    + cbn in Hl. inversion Hl; subst. contradiction.
    + inversion Hl; subst. apply Forall_app in Hpre. destruct Hpre as (_ & Hpre).
      inversion Hpre; subst.
      destruct l' as [| z l'']; [cbn; exact I | ].
      cbn. apply (checked_head (z :: l'')). assumption.
  - destruct l' as [| y l'].
    + cbn in Hl. inversion Hl; subst. contradiction.
    + inversion Hl; subst. exfalso.
      apply Forall_elt in Hrest. apply (Hrest (Fsync fd) r). reflexivity.
Qed.

(** * Properties of every position of a log *)

Lemma snoc_split {A} (l p m : list A) (x y : A) :
  l ++ [x] = p ++ y :: m ->
  (m = [] /\ y = x /\ p = l) \/ (exists m', m = m' ++ [x] /\ l = p ++ y :: m').
Proof.
  intros H. destruct m as [| z m0] using rev_ind.
  - apply app_inj_tail in H. destruct H as (-> & ->). left. auto.
  - clear IHm0. right. exists m0.
    change (p ++ y :: m0 ++ [z]) with (p ++ (y :: m0) ++ [z]) in H.
    rewrite app_assoc in H. apply app_inj_tail in H. destruct H as (-> & ->). auto.
Qed.

Lemma at_each_nil P : at_each P [].
Proof. intros [| x pre] ev post H; discriminate. Qed.

Lemma at_each_snoc P (l : list Event) (ev : Event) :
  at_each P l -> P l ev -> at_each P (l ++ [ev]).
Proof.
  intros Hl Hev pre ev' post Heq. apply snoc_split in Heq.
  destruct Heq as [(_ & -> & ->) | (m' & _ & ->)]; [exact Hev | ].
  apply (Hl pre ev' m'). reflexivity.
Qed.

(** ** Live resources *)

Lemma live_fds_app (l evs : list Event) :
  live_fds (l ++ evs) = fold_left fd_step evs (live_fds l).
Proof. apply fold_left_app. Qed.

Lemma live_bufs_app (l evs : list Event) :
  live_bufs (l ++ evs) = fold_left buf_step evs (live_bufs l).
Proof. apply fold_left_app. Qed.

Lemma remove_only (fd : Z) : remove Z.eq_dec fd [fd] = [].
Proof. cbn. destruct (Z.eq_dec fd fd); [reflexivity | contradiction]. Qed.

Lemma resources_snoc fds bufs l ev :
  resources fds bufs l -> one_of_each l ev ->
  resources (fd_step fds ev) (buf_step bufs ev) (l ++ [ev]).
Proof.
  intros (Ha & Hf & Hb) Hev. split; [apply at_each_snoc; assumption | ].
  rewrite live_fds_app, live_bufs_app, Hf, Hb. auto.
Qed.

Lemma resources_cons fds bufs fds' bufs' l ev evs :
  resources fds bufs l -> one_of_each l ev ->
  (resources (fd_step fds ev) (buf_step bufs ev) (l ++ [ev]) ->
   resources fds' bufs' ((l ++ [ev]) ++ evs)) ->
  resources fds' bufs' (l ++ ev :: evs).
Proof.
  intros H Hev K. change (ev :: evs) with ([ev] ++ evs). rewrite app_assoc.
  apply K, resources_snoc; assumption.
Qed.

Lemma resources_done fds bufs l : resources fds bufs l -> resources fds bufs (l ++ []).
Proof. rewrite app_nil_r. exact (fun H => H). Qed.

Lemma resources_header fds bufs l f c :
  resources fds bufs l ->
  resources fds bufs (l ++ write_header f c) /\
  resources fds bufs (l ++ read_header f c).
Proof.
  intros H. unfold write_header, read_header. split; destruct c; cbn [app];
    repeat (eapply resources_cons;
            [eassumption | exact I | cbn [fd_step buf_step]; clear H; intros H]);
    apply resources_done; assumption.
Qed.

(** One event of the list appended to the log: [R] is the state of the
    resources before it and becomes the state after it. *)
Ltac res_step R :=
  eapply resources_cons;
  [ exact R
  | first [exact I | exact (proj2 R)]
  | clear R; intros R; cbn [fd_step buf_step] in R;
    rewrite ?remove_only, ?Z.eqb_refl in R ].

Ltac res_end R := apply resources_done; exact R.

Lemma benchmark_write_resources (env : Env) (f : string) (c : option string)
    (fl : Z) (w : World) :
  resources [] 0 (log w) ->
  match benchmark_write f c fl env w with
  | (Done _, w') => resources [] 0 (log w')
  | (Exited s, w') => s = -1 /\ tracked (log w')
  end.
Proof.
  intros Hw. destruct (resources_header _ _ _ f c Hw) as (R & _).
  apply write_sweep_rule with
    (J := fun _ l => resources [] 1 l) (K := fun _ fd _ l => resources [fd] 1 l).
  - res_step R. res_end R.
  - intros m Hm. exists [], 0%nat. res_step R.
    apply Z.eqb_neq in Hm. rewrite Hm in R. res_step R. res_step R. res_end R.
  - clear R. intros e l fd He R Hfd. res_step R.
    apply Z.eqb_neq in Hfd. rewrite Hfd in R. res_end R.
  - clear R. intros e l He R. exists [], 1%nat. res_step R.
    res_step R. res_step R. res_end R.
  - clear R. intros e fd k l r He Hk R. res_step R. res_step R. res_end R.
  - clear R. intros e fd k l r He Hk R Hr. exists [fd], 1%nat.
    res_step R. res_step R. res_step R. res_end R.
  - clear R. intros e fd l r1 r2 v He R. res_step R. res_step R. res_step R.
    res_end R.
  - clear R. intros l R. res_step R. res_step R. res_end R.
Qed.

Lemma benchmark_read_resources (env : Env) (f : string) (c : option string)
    (fl : Z) (w : World) :
  resources [] 0 (log w) ->
  match benchmark_read f c fl env w with
  | (Done _, w') => resources [] 0 (log w')
  | (Exited s, w') => s = -1 /\ tracked (log w')
  end.
Proof.
  intros Hw. destruct (resources_header _ _ _ f c Hw) as (_ & R).
  apply read_sweep_rule with
    (J := fun fd _ l => resources [fd] 1 l) (K := fun fd _ _ l => resources [fd] 1 l).
  - intros fd r Hfd. res_step R. res_step R.
    apply Z.eqb_neq in Hfd. rewrite Hfd in R. res_step R. res_step R. res_end R.
  - intros m Hm. exists [], 0%nat. res_step R.
    apply Z.eqb_neq in Hm. rewrite Hm in R. res_step R. res_step R. res_end R.
  - exists [], 1%nat. res_step R. res_step R. res_step R. res_step R. res_end R.
  - intros fd n Hfd Hn. exists [fd], 1%nat. res_step R. res_step R.
    apply Z.eqb_neq in Hfd. rewrite Hfd in R.
    res_step R. res_step R. res_step R. res_end R.
  - intros fd e l He HJ. exact HJ.
  - clear R. intros fd e k l r He Hk R Hr. res_step R. res_end R.
  - clear R. intros fd e k l r He Hk R Hr. exists [fd], 1%nat.
    res_step R. res_step R. res_step R. res_step R. res_end R.
  - clear R. intros fd e l cyc He R. res_step R. res_end R.
  - clear R. intros fd l r1 r2 R. res_step R. res_step R. res_step R. res_step R.
    res_end R.
Qed.

(** ** Closing the descriptor between sizes *)

Lemma settled_closed_between (l : list Event) :
  at_each settled_before l -> closed_between_sizes l.
Proof.
  intros H pre e1 mid e2 post S1 S2 Heq H1 H2 Hne.
  change (e1 :: mid ++ e2 :: post) with ((e1 :: mid) ++ e2 :: post) in Heq.
  rewrite app_assoc in Heq.
  apply (H _ _ _ Heq S2 H2 pre e1 mid S1); auto.
Qed.

Lemma has_close_snoc (l : list Event) (ev : Event) :
  has_close l -> has_close (l ++ [ev]).
Proof. intros (fd & r & H). exists fd, r. apply in_or_app. left. exact H. Qed.

Lemma settled_snoc (S : Z) (l : list Event) (ev : Event) :
  settled S l -> (forall S1, xfer_size ev = Some S1 -> S1 = S) ->
  settled S (l ++ [ev]).
Proof.
  intros H Hev p e1 mid S1 Heq H1 Hne. apply snoc_split in Heq.
  destruct Heq as [(_ & -> & _) | (m' & -> & ->)].
  - exfalso. apply Hne, Hev, H1.
  - apply has_close_snoc. apply (H p e1 m' S1); auto.
Qed.

Lemma settled_close (S : Z) (l : list Event) (fd r : Z) :
  settled S (l ++ [Sys (Close fd) r]).
Proof.
  intros p e1 mid S1 Heq H1 Hne. apply snoc_split in Heq.
  destruct Heq as [(_ & -> & _) | (m' & -> & _)]; [discriminate | ].
  exists fd, r. apply in_or_app. right. left. reflexivity.
Qed.

Lemma sized_enter (S : Z) (l : list Event) : sized None l -> sized (Some S) l.
Proof. intros (H & K). split; [exact H | apply K]. Qed.

Lemma sized_quiet (o : option Z) (l : list Event) (ev : Event) :
  xfer_size ev = None -> sized o l -> sized o (l ++ [ev]).
Proof.
  intros Hev (H & K). split.
  - apply at_each_snoc; [exact H | ]. intros S HS. congruence.
  - destruct o as [sz | ]; [ | intros sz];
      (apply settled_snoc; [auto | intros S1 H1; congruence]).
Qed.

Lemma sized_xfer (S : Z) (l : list Event) (ev : Event) :
  xfer_size ev = Some S -> sized (Some S) l -> sized (Some S) (l ++ [ev]).
Proof.
  intros Hev (H & K). split.
  - apply at_each_snoc; [exact H | ]. intros S' HS.
    assert (S' = S) by congruence. subst S'. exact K.
  - apply settled_snoc; [exact K | ]. intros S1 H1. congruence.
Qed.

Lemma sized_close (o : option Z) (l : list Event) (fd r : Z) :
  sized o l -> sized None (l ++ [Sys (Close fd) r]).
Proof.
  intros (H & K). split.
  - apply at_each_snoc; [exact H | ]. intros S HS. discriminate.
  - intros S. apply settled_close.
Qed.

Lemma sized_cons (o o' : option Z) (l : list Event) (ev : Event) (evs : list Event) :
  sized o' ((l ++ [ev]) ++ evs) -> sized o' (l ++ ev :: evs).
Proof. rewrite <- app_assoc. exact (fun H => H). Qed.

Ltac sized_quiet_all :=
  repeat (apply (sized_cons None));
  rewrite ?app_nil_r;
  repeat (apply sized_quiet; [reflexivity | ]).

Lemma sized_header (o : option Z) (l : list Event) (f : string) (c : option string) :
  sized o l -> sized o (l ++ write_header f c).
Proof.
  intros H. unfold write_header. destruct c; cbn [app]; sized_quiet_all; exact H.
Qed.

Lemma benchmark_write_closes (env : Env) (f : string) (c : option string)
    (fl : Z) (w : World) :
  sized None (log w) ->
  match benchmark_write f c fl env w with
  | (Done _, w') => sized None (log w')
  | (Exited s, w') => s = -1 /\ between_sizes (log w')
  end.
Proof.
  intros Hw. pose proof (sized_header _ _ f c Hw) as R.
  apply write_sweep_rule with
    (J := fun _ l => sized None l) (K := fun e _ _ l => sized (Some (2 ^ e)) l).
  - sized_quiet_all. exact R.
  - intros m Hm. exists None. sized_quiet_all. exact R.
  - intros e l fd He HJ Hfd. sized_quiet_all. apply sized_enter, HJ.
  - intros e l He HJ. exists None. sized_quiet_all. exact HJ.
  - intros e fd k l r He Hk HK. apply (sized_cons None).
    apply sized_quiet; [reflexivity | ]. apply sized_xfer; [reflexivity | exact HK].
  - intros e fd k l r He Hk HK Hr. exists (Some (2 ^ e)).
    do 2 apply (sized_cons None). do 2 (apply sized_quiet; [reflexivity | ]).
    apply sized_xfer; [reflexivity | exact HK].
  - intros e fd l r1 r2 v He HK. do 2 apply (sized_cons None).
    do 2 (apply sized_quiet; [reflexivity | ]). eapply sized_close, HK.
  - intros l HJ. sized_quiet_all. exact HJ.
Qed.

(** ** The read sweep keeps its descriptor *)

Lemma kept_open_snoc (l : list Event) (ev : Event) :
  (forall fd r, ev <> Sys (Close fd) r) -> kept_open l -> kept_open (l ++ [ev]).
Proof.
  intros Hev (H & K). split.
  - apply at_each_snoc; [exact H | ].
    destruct ev as [[] | | | | |]; try exact I. exact K.
  - apply Forall_app. split; [exact K | ]. constructor; [exact Hev | constructor].
Qed.

Lemma kept_open_cons (l : list Event) (ev : Event) (evs : list Event) :
  kept_open ((l ++ [ev]) ++ evs) -> kept_open (l ++ ev :: evs).
Proof. rewrite <- app_assoc. exact (fun H => H). Qed.

Ltac kept_all :=
  repeat apply kept_open_cons;
  rewrite ?app_nil_r;
  repeat (apply kept_open_snoc; [intros ? ?; discriminate | ]).

Lemma open_throughout_snoc (l : list Event) (ev : Event) :
  xfer_size ev = None -> at_each open_throughout l ->
  at_each open_throughout (l ++ [ev]).
Proof.
  intros Hev H. apply at_each_snoc; [exact H | ].
  destruct ev as [[] | | | | |]; try exact I. discriminate.
Qed.

Lemma benchmark_read_keeps_open (env : Env) (f : string) (c : option string)
    (fl : Z) (w : World) :
  kept_open (log w) ->
  match benchmark_read f c fl env w with
  | (Done _, w') => at_each open_throughout (log w')
  | (Exited s, w') => s = -1 /\ at_each open_throughout (log w')
  end.
Proof.
  intros Hw.
  assert (R : kept_open (log w ++ read_header f c)).
  { unfold read_header. destruct c; cbn [app]; kept_all; exact Hw. }
  apply read_sweep_rule with
    (J := fun _ _ l => kept_open l) (K := fun _ _ _ l => kept_open l).
  - intros fd r Hfd. kept_all. exact R.
  - intros m Hm. assert (G : kept_open
      ((log w ++ read_header f c)
       ++ [Sys (Posix_memalign 512 readMaxSize) m; Perror "Memalign failed";
           Exit (-1)])) by (kept_all; exact R).
    apply G.
  - assert (G : kept_open
      ((log w ++ read_header f c)
       ++ [Sys (Posix_memalign 512 readMaxSize) 0;
           Sys (Open f (Z.lor (Z.lor O_RDWR O_CREAT) fl) 438) (-1);
           Perror "Opening file failed"; Exit (-1)])) by (kept_all; exact R).
    apply G.
  - intros fd n Hfd Hn. assert (G : kept_open
      ((log w ++ read_header f c)
       ++ [Sys (Posix_memalign 512 readMaxSize) 0;
           Sys (Open f (Z.lor (Z.lor O_RDWR O_CREAT) fl) 438) fd;
           Sys (Write fd readMaxSize) n;
           Perror "Initial Write"; Exit (-1)])) by (kept_all; exact R).
    apply G.
  - intros fd e l He HJ. exact HJ.
  - intros fd e k l r He Hk HK Hr. kept_all. exact HK.
  - intros fd e k l r He Hk HK Hr.
    match goal with
    | |- at_each _ ?l0 => assert (G : kept_open l0) by (kept_all; exact HK)
    end.
    apply G.
  - intros fd e l cyc He HK. kept_all. exact HK.
  - intros fd l r1 r2 (H & _).
    change [Sys (Close fd) r1; Sys (Remove f) r2; Printf Blank; Free]
      with ([Sys (Close fd) r1] ++ [Sys (Remove f) r2] ++ [Printf Blank] ++ [Free]).
    rewrite !app_assoc.
    repeat (apply open_throughout_snoc; [reflexivity | ]). exact H.
Qed.

Lemma resources_start : resources [] 0 (log start).
Proof. split; [apply at_each_nil | split; reflexivity]. Qed.

Lemma sized_start : sized None (log start).
Proof.
  split; [apply at_each_nil | ].
  intros size [| x p] e1 mid S1 H; discriminate.
Qed.

Lemma kept_open_start : kept_open (log start).
Proof. split; [apply at_each_nil | constructor]. Qed.

(** * The life of the target file *)

Lemma skeleton_app (l l' : list Event) :
  skeleton (l ++ l') = skeleton l ++ skeleton l'.
Proof. apply flat_map_app. Qed.

Lemma exps_below_next (e : Z) :
  minExp <= e -> exps_below (e + 1) = exps_below e ++ [e].
Proof.
  intros He. unfold exps_below.
  replace (Z.to_nat (e + 1 - minExp)) with (S (Z.to_nat (e - minExp))) by lia.
  rewrite seq_S, map_app. cbn [map]. do 2 f_equal. lia.
Qed.

Lemma repeat_next {A} (x : A) (k : Z) :
  0 <= k -> repeat x (Z.to_nat (k + 1)) = repeat x (Z.to_nat k) ++ [x].
Proof.
  intros Hk. replace (Z.to_nat (k + 1)) with (S (Z.to_nat k)) by lia.
  cbn [repeat]. apply repeat_cons.
Qed.

Lemma header_skeleton (f : string) (c : option string) :
  skeleton (write_header f c) = [] /\ skeleton (read_header f c) = [].
Proof. destruct c; split; reflexivity. Qed.

Lemma benchmark_write_skeleton (env : Env) (f : string) (c : option string)
    (fl : Z) (w : World) :
  match benchmark_write f c fl env w with
  | (Done _, w') => skeleton (log w') = skeleton (log w) ++ write_ops f
  | (Exited s, w') => s = -1 /\ True
  end.
Proof.
  apply write_sweep_rule with
    (J := fun e l =>
       skeleton l = skeleton (log w) ++ flat_map (write_size_ops f) (exps_below e))
    (K := fun e _ k l =>
       skeleton l = skeleton (log w) ++ flat_map (write_size_ops f) (exps_below e)
                    ++ OOpen f :: repeat (OXfer (2 ^ e)) (Z.to_nat k))
    (E := fun _ => True)
    (Q := fun l => skeleton l = skeleton (log w) ++ write_ops f); auto.
  - rewrite !skeleton_app, (proj1 (header_skeleton f c)).
    change (exps_below minExp) with (@nil Z). cbn [skeleton flat_map app].
    rewrite !app_nil_r. reflexivity.
  - intros e l fd He HJ _. rewrite skeleton_app, HJ, <- app_assoc. reflexivity.
  - intros e fd k l r He Hk HK.
    rewrite skeleton_app, HK, repeat_next by lia. cbn [skeleton flat_map app].
    rewrite <- !app_assoc. reflexivity.
  - intros e fd l r1 r2 v He HK.
    rewrite skeleton_app, HK, exps_below_next, flat_map_app by lia.
    cbn [skeleton flat_map app]. unfold write_size_ops, transfers.
    rewrite <- !app_assoc. cbn [app]. rewrite <- !app_assoc. reflexivity.
  - intros l HJ. rewrite skeleton_app, HJ. cbn. rewrite app_nil_r. reflexivity.
Qed.

Lemma benchmark_read_skeleton (env : Env) (f : string) (c : option string)
    (fl : Z) (w : World) :
  match benchmark_read f c fl env w with
  | (Done _, w') => skeleton (log w') = skeleton (log w) ++ read_ops f
  | (Exited s, w') => s = -1 /\ True
  end.
Proof.
  apply read_sweep_rule with
    (J := fun _ e l =>
       skeleton l = skeleton (log w) ++ OOpen f :: flat_map transfers (exps_below e))
    (K := fun _ e k l =>
       skeleton l = skeleton (log w) ++ OOpen f :: flat_map transfers (exps_below e)
                    ++ repeat (OXfer (2 ^ e)) (Z.to_nat k))
    (E := fun _ => True)
    (Q := fun l => skeleton l = skeleton (log w) ++ read_ops f); auto.
  - intros fd r _. rewrite !skeleton_app, (proj2 (header_skeleton f c)).
    change (exps_below minExp) with (@nil Z). cbn [skeleton flat_map app].
    rewrite !app_nil_r. reflexivity.
  - intros fd e l He HJ. rewrite HJ, app_nil_r. reflexivity.
  - intros fd e k l r He Hk HK Hr.
    rewrite skeleton_app, HK, repeat_next by lia. cbn [skeleton flat_map app].
    rewrite <- !app_assoc. cbn [app]. rewrite <- !app_assoc. reflexivity.
  - intros fd e l cyc He HK.
    rewrite skeleton_app, HK, exps_below_next, flat_map_app by lia.
    cbn [skeleton flat_map app]. unfold transfers.
    rewrite !app_nil_r. reflexivity.
  - intros fd l r1 r2 HJ. rewrite skeleton_app, HJ. unfold read_ops.
    cbn [skeleton flat_map app]. rewrite <- app_assoc. reflexivity.
Qed.

Lemma benchmark_read_ends (env : Env) (f : string) (c : option string)
    (fl : Z) (w : World) :
  match benchmark_read f c fl env w with
  | (Done _, w') =>
      exists pre fd r1 r2,
        log w' = pre ++ [Sys (Close fd) r1; Sys (Remove f) r2; Printf Blank; Free]
  | (Exited s, w') => s = -1 /\ True
  end.
Proof.
  apply read_sweep_rule with
    (J := fun _ _ _ => True) (K := fun _ _ _ _ => True) (E := fun _ => True)
    (Q := fun l => exists pre fd r1 r2,
            l = pre ++ [Sys (Close fd) r1; Sys (Remove f) r2; Printf Blank; Free]);
    auto.
  intros fd l r1 r2 _. exists l, fd, r1, r2. reflexivity.
Qed.

(** ** The path the calls name *)

Ltac path_tail :=
  apply Forall_snoc_list; [assumption | ];
  repeat (apply Forall_cons; [first [exact I | reflexivity] | ]);
  apply Forall_nil.

Lemma header_paths (l : list Event) (f : string) (c : option string) :
  Forall (path_is f) l ->
  Forall (path_is f) (l ++ write_header f c) /\
  Forall (path_is f) (l ++ read_header f c).
Proof. intros H. split; destruct c; path_tail. Qed.

Lemma benchmark_write_paths (env : Env) (f : string) (c : option string)
    (fl : Z) (w : World) :
  Forall (path_is f) (log w) ->
  match benchmark_write f c fl env w with
  | (Done _, w') => Forall (path_is f) (log w')
  | (Exited s, w') => s = -1 /\ Forall (path_is f) (log w')
  end.
Proof.
  intros Hw. destruct (header_paths _ f c Hw) as (Hh & _).
  apply write_sweep_rule with
    (J := fun _ l => Forall (path_is f) l)
    (K := fun _ _ _ l => Forall (path_is f) l); intros; path_tail.
Qed.

Lemma benchmark_read_paths (env : Env) (f : string) (c : option string)
    (fl : Z) (w : World) :
  Forall (path_is f) (log w) ->
  match benchmark_read f c fl env w with
  | (Done _, w') => Forall (path_is f) (log w')
  | (Exited s, w') => s = -1 /\ Forall (path_is f) (log w')
  end.
Proof.
  intros Hw. destruct (header_paths _ f c Hw) as (_ & Hh).
  apply read_sweep_rule with
    (J := fun _ _ l => Forall (path_is f) l)
    (K := fun _ _ _ l => Forall (path_is f) l); intros;
    first [assumption | path_tail].
Qed.

(** A run of the program that completes: both sweeps ran on the file name
    chosen from the arguments, and the last call is the [remove] of the read
    sweep. *)
Lemma main_completes (env : Env) (argv : list string) (z : Z) :
  let f := main_filename argv in
  let run := main argv env start in
  fst run = Done z ->
  Z.of_nat (List.length argv) < 3 /\
  skeleton (log (snd run)) = write_ops f ++ read_ops f /\
  exists pre fd r1 r,
    log (snd run) = pre ++ [Sys (Close fd) r1; Sys (Remove f) r; Printf Blank; Free].
Proof.
  intros f run Hd. subst run. rewrite main_eq in *. fold f in Hd |- *.
  destruct (Z.leb_spec 3 (Z.of_nat (List.length argv))); [discriminate | ].
  split; [assumption | ].
  pose proof (benchmark_write_skeleton env f main_comment main_flags start) as SW.
  destruct (benchmark_write _ _ _ env start) as [[[] | s] w1]; [ | discriminate].
  pose proof (benchmark_read_skeleton env f main_comment main_flags w1) as SR.
  pose proof (benchmark_read_ends env f main_comment main_flags w1) as ER.
  destruct (benchmark_read _ _ _ env w1) as [[[] | s] w2]; [ | discriminate].
  cbn [fst snd] in *. split; [rewrite SR, SW; reflexivity | exact ER].
Qed.

Lemma main_paths (env : Env) (argv : list string) :
  Z.of_nat (List.length argv) < 3 ->
  Forall (path_is (main_filename argv)) (log (snd (main argv env start))).
Proof.
  intros Hn. rewrite main_eq.
  destruct (Z.leb_spec 3 (Z.of_nat (List.length argv))); [lia | ].
  pose proof (benchmark_write_paths env (main_filename argv) main_comment
                main_flags start (Forall_nil _)) as PW.
  destruct (benchmark_write _ _ _ env start) as [[[] | s] w1]; [ | apply PW].
  pose proof (benchmark_read_paths env (main_filename argv) main_comment
                main_flags w1 PW) as PR.
  destruct (benchmark_read _ _ _ env w1) as [[[] | s] w2]; apply PR.
Qed.

(** * Completion on an obliging platform *)

(** A read of the sweep ends within the pre-populated file. *)
Lemma read_within_file (e k : Z) :
  minExp <= e <= maxExp -> 0 <= k < repCount (2 ^ e) ->
  0 <= read_at e k /\ (512 | read_at e k) /\ read_at e k + 2 ^ e <= readMaxSize.
Proof.
  intros He Hk. destruct (read_stride_bounds (2 ^ e) k Hk) as (_ & Hb & _).
  unfold read_at.
  destruct (mask512_spec (k * (readMaxSize / repCount (2 ^ e))) ltac:(lia))
    as (_ & Hd & Hr).
  split; [apply Hr | split; [exact Hd | ]].
  assert ((repCount (2 ^ e) - 1) * (readMaxSize / repCount (2 ^ e)) + 2 ^ e
          <= readMaxSize) by (clear Hk Hb Hd Hr; each_exp He; vm_compute; discriminate).
  lia.
Qed.

Lemma wrap32_pow2 (e : Z) : minExp <= e <= maxExp -> wrap32 (2 ^ e) = 2 ^ e.
Proof.
  intros He. rewrite <- (writeSize_pow2 e He) at 1. unfold wrap32.
  rewrite Z.mod_mod by discriminate. apply writeSize_pow2, He.
Qed.

Lemma benchmark_write_obliged (env : Env) (f : string) (c : option string)
    (fl : Z) (w : World) :
  obliging env -> fst (benchmark_write f c fl env w) = Done tt.
Proof.
  intros (Hal & Hop & Hpw & _ & _).
  rewrite benchmark_write_eq. cbn zeta. rewrite Hal, Z.eqb_refl.
  loop_rule (fun (_ : Z) (_ : unit) (_ : World) => True)
            (fun (_ : unit) (_ : World) => True)
            (fun (_ : Z) (_ : World) => False).
  - exact I.
  - intros e [] w1 _ _. rewrite write_size_eq. cbn zeta.
    destruct (Z.eqb_spec (-1) (sys env (calls w1)
                (Open f (Z.lor (Z.lor O_WRONLY O_CREAT) fl) 438))) as [E | _];
      [symmetry in E; apply Hop in E; contradiction | ].
    loop_rule (fun (_ : Z) (_ : WriteVars) (_ : World) => True)
              (fun (_ : WriteVars) (_ : World) => True)
              (fun (_ : Z) (_ : World) => False).
    + exact I.
    + intros k v w2 _ _. rewrite write_rep_eq. cbn zeta.
      rewrite Hpw, Z.eqb_refl. exact I.
    + auto.
    + exact I.
    + exact L.
  - auto.
  - reflexivity.
  - contradiction.
Qed.

Lemma benchmark_read_obliged (env : Env) (f : string) (c : option string)
    (fl : Z) (w : World) :
  obliging env -> fst (benchmark_read f c fl env w) = Done tt.
Proof.
  intros (Hal & Hop & _ & Hwr & Hpr).
  rewrite benchmark_read_eq. cbn zeta. rewrite Hal, Z.eqb_refl.
  destruct (Z.eqb_spec (-1) (sys env (S (calls w))
              (Open f (Z.lor (Z.lor O_RDWR O_CREAT) fl) 438))) as [E | _];
    [symmetry in E; apply Hop in E; contradiction | ].
  rewrite Hwr, Z.eqb_refl.
  loop_rule (fun (e : Z) (_ : unit) (_ : World) => minExp <= e <= maxExp + 1)
            (fun (_ : unit) (_ : World) => True)
            (fun (_ : Z) (_ : World) => False).
  - unfold minExp, maxExp. lia.
  - intros e [] w1 He _.
    assert (He' : minExp <= e <= maxExp) by (unfold minExp, maxExp in *; lia).
    rewrite read_size_eq. cbn zeta. rewrite writeSize_pow2 by assumption.
    pose proof (repCount_pos (2 ^ e)) as Hc.
    loop_rule (fun (_ : Z) (_ : Z) (_ : World) => True)
              (fun (_ : Z) (_ : World) => True)
              (fun (_ : Z) (_ : World) => False).
    + exact I.
    + intros k cyc w2 Hk _. rewrite read_rep_eq. cbn zeta.
      rewrite read_offset_eq by lia.
      destruct (read_within_file e k He' ltac:(lia)) as (H0 & _ & Hin).
      rewrite Hpr, wrap32_pow2, Z.eqb_refl by assumption. exact I.
    + auto.
    + lia.
    + exact L.
  - auto.
  - reflexivity.
  - contradiction.
Qed.

(** * Runs that stop at a failing call *)

Lemma stopped_intro (pre tail : list Event) :
  Forall accepted pre -> fatal tail -> stopped (pre ++ tail).
Proof. intros H F. exists pre, tail. auto. Qed.

Lemma stopped_shift (pre tail : list Event) (x : Event) :
  stopped ((pre ++ [x]) ++ tail) -> stopped (pre ++ x :: tail).
Proof. rewrite <- app_assoc. exact (fun H => H). Qed.

Ltac accepted_tail :=
  apply Forall_snoc_list; [assumption | ];
  repeat (apply Forall_cons;
          [first [exact I | reflexivity | assumption] | ]);
  apply Forall_nil.

Lemma header_accepted (l : list Event) (f : string) (c : option string) :
  Forall accepted l ->
  Forall accepted (l ++ write_header f c) /\ Forall accepted (l ++ read_header f c).
Proof. intros H. split; destruct c; accepted_tail. Qed.

Lemma benchmark_write_stops (env : Env) (f : string) (c : option string)
    (fl : Z) (w : World) :
  Forall accepted (log w) ->
  match benchmark_write f c fl env w with
  | (Done _, w') => Forall accepted (log w')
  | (Exited s, w') => s = -1 /\ stopped (log w')
  end.
Proof.
  intros Hw. destruct (header_accepted (log w) f c Hw) as (Hh & _).
  apply write_sweep_rule with
    (J := fun _ l => Forall accepted l) (K := fun _ _ _ l => Forall accepted l).
  - accepted_tail.
  - intros m Hm. apply stopped_intro; [assumption | apply fatal_memalign, Hm].
  - intros e l fd He HJ Hfd. accepted_tail.
  - intros e l He HJ. apply stopped_intro; [assumption | apply fatal_open].
  - intros e fd k l r He Hk HK. accepted_tail.
  - intros e fd k l r He Hk HK Hr.
    apply stopped_intro; [assumption | apply fatal_pwrite, Hr].
  - intros e fd l r1 r2 v He HK. accepted_tail.
  - intros l HJ. accepted_tail.
Qed.

Lemma benchmark_read_stops (env : Env) (f : string) (c : option string)
    (fl : Z) (w : World) :
  Forall accepted (log w) ->
  match benchmark_read f c fl env w with
  | (Done _, w') => Forall accepted (log w')
  | (Exited s, w') => s = -1 /\ stopped (log w')
  end.
Proof.
  intros Hw. destruct (header_accepted (log w) f c Hw) as (_ & Hh).
  apply read_sweep_rule with
    (J := fun _ _ l => Forall accepted l) (K := fun _ _ _ l => Forall accepted l).
  - intros fd r Hfd. accepted_tail.
  - intros m Hm. apply stopped_intro; [assumption | apply fatal_memalign, Hm].
  - apply stopped_shift, stopped_intro; [accepted_tail | apply fatal_open].
  - intros fd n Hfd Hn.
    apply stopped_shift, stopped_shift, stopped_intro;
      [ | apply fatal_write; exact Hn].
    apply Forall_snoc_list; [accepted_tail | ].
    apply Forall_cons; [exact Hfd | apply Forall_nil].
  - intros fd e l He HJ. exact HJ.
  - intros fd e k l r He Hk HK Hr. accepted_tail.
  - intros fd e k l r He Hk HK Hr.
    apply stopped_intro; [assumption | apply fatal_pread, Hr].
  - intros fd e l cyc He HK. accepted_tail.
  - intros fd l r1 r2 HJ. accepted_tail.
Qed.

(** What follows a call of a stopped log: nothing, if the call is accepted;
    its own diagnostic and the exit, if it is the fatal one. *)
Lemma fatal_split (tail l' post : list Event) (c : Call) (r : Z) :
  fatal tail -> tail = l' ++ Sys c r :: post ->
  ~ accepted (Sys c r) /\
  match c with
  | Posix_memalign _ _ => post = [Perror "Memalign failed"; Exit (-1)]
  | Open _ _ _ => post = [Perror "Opening file failed"; Exit (-1)]
  | Write _ _ => post = [Perror "Initial Write"; Exit (-1)]
  | Pwrite _ _ _ => post = [Perror "Write"; Exit (-1)]
  | Pread _ count _ =>
      post = [Printf (ShortRead count (to_int32 (wrap32 r)));
              Perror "Read"; Exit (-1)]
  | _ => False
  end.
Proof.
  intros F Ht. destruct l' as [| x l'].
  - cbn in Ht. destruct F; inversion Ht; subst; cbn [accepted]; split; auto.
  - exfalso.
    assert (N : Forall (fun ev => forall c r, ev <> Sys c r) (tl tail))
      by (destruct F; repeat constructor; intros ? ?; discriminate).
    rewrite Ht in N. cbn in N. apply Forall_elt in N. apply (N c r). reflexivity.
Qed.

Lemma stopped_call (l pre post : list Event) (c : Call) (r : Z) :
  stopped l -> l = pre ++ Sys c r :: post ->
  accepted (Sys c r) \/
  match c with
  | Posix_memalign _ _ => post = [Perror "Memalign failed"; Exit (-1)]
  | Open _ _ _ => post = [Perror "Opening file failed"; Exit (-1)]
  | Write _ _ => post = [Perror "Initial Write"; Exit (-1)]
  | Pwrite _ _ _ => post = [Perror "Write"; Exit (-1)]
  | Pread _ count _ =>
      post = [Printf (ShortRead count (to_int32 (wrap32 r)));
              Perror "Read"; Exit (-1)]
  | _ => False
  end.
Proof.
  intros (pre0 & tail & -> & Hpre & F) Heq. apply app_eq_app in Heq.
  destruct Heq as (l' & [[-> Hl] | [-> Hl]]).
  - destruct l' as [| y l'].
    + right. apply (fatal_split tail [] post c r F). symmetry. exact Hl.
    + inversion Hl; subst. apply Forall_elt in Hpre. left. exact Hpre.
  - right. apply (fatal_split tail l' post c r F Hl).
Qed.

(** A run of a sweep from the empty log either finishes, every checked call
    of it accepted, or exits with -1 right after the one call that was not:
    the log is accepted events up to that call, then its diagnostic. *)
Lemma write_run_ends (env : Env) (f : string) (c : option string) (fl : Z) :
  let wr := benchmark_write f c fl env start in
  (fst wr = Done tt /\ Forall accepted (log (snd wr))) \/
  (fst wr = Exited (-1) /\ stopped (log (snd wr))).
Proof.
  intros wr.
  pose proof (benchmark_write_stops env f c fl start (Forall_nil _)) as H.
  subst wr. destruct (benchmark_write f c fl env start) as [[[] | s] w];
    cbn [fst snd].
  - left. split; [reflexivity | exact H].
  - destruct H as (-> & H). right. split; [reflexivity | exact H].
Qed.

Lemma read_run_ends (env : Env) (f : string) (c : option string) (fl : Z) :
  let rd := benchmark_read f c fl env start in
  (fst rd = Done tt /\ Forall accepted (log (snd rd))) \/
  (fst rd = Exited (-1) /\ stopped (log (snd rd))).
Proof.
  intros rd.
  pose proof (benchmark_read_stops env f c fl start (Forall_nil _)) as H.
  subst rd. destruct (benchmark_read f c fl env start) as [[[] | s] w];
    cbn [fst snd].
  - left. split; [reflexivity | exact H].
  - destruct H as (-> & H). right. split; [reflexivity | exact H].
Qed.

Lemma main_stops (env : Env) (argv : list string) :
  match main argv env start with
  | (Done z, w) => z = 0 /\ Forall accepted (log w)
  | (Exited s, w) => s = -1 /\ (stopped (log w) \/ log w = usage_log)
  end.
Proof.
  rewrite main_eq. case_if.
  - split; [reflexivity | right; reflexivity].
  - pose proof (benchmark_write_stops env (main_filename argv) main_comment
                  main_flags start (Forall_nil _)) as FW.
    destruct (benchmark_write _ _ _ env start) as [[[] | s] w1].
    + pose proof (benchmark_read_stops env (main_filename argv) main_comment
                    main_flags w1 FW) as FR.
      destruct (benchmark_read _ _ _ env w1) as [[[] | s] w2].
      * split; [reflexivity | exact FR].
      * destruct FR as (-> & FR). split; [reflexivity | left; exact FR].
    + destruct FW as (-> & FW). split; [reflexivity | left; exact FW].
Qed.

(** * The claims *)

(** C1.  In the read sweep, with [T] the size of the pre-populated file and
    [c] the repetition count of read size [S = 2^e], the stride is the
    integer quotient [T / c]; in every run the reads of size [S] go, in
    order, to the offsets [(i * stride)] with the low nine bits cleared, all
    [c] of them when the sweep finishes; each such offset is a multiple of
    512 and lies in [[0, T - S]]. *)
Theorem read_sweep_offsets (env : Env) (f : string) (c : option string)
    (fl e : Z) :
  minExp <= e <= maxExp ->
  let S := 2 ^ e in
  let T := Z.max (Z.shiftl 1 maxExp * largeCount) (Z.shiftl 1 20 * smallCount) in
  let cnt := repCount S in
  let stride := T / cnt in
  let offset i := Z.land (i * stride) (Z.lnot 511) in
  let run := benchmark_read f c fl env start in
  readMaxSize = T /\
  wrap32 (readMaxSize / cnt) = stride /\
  (exists m : nat,
     Z.of_nat m <= cnt /\
     (fst run = Done tt -> Z.of_nat m = cnt) /\
     pread_offsets S (log (snd run)) = first_n offset m) /\
  (forall i, 0 <= i < cnt ->
     read_offset i (wrap32 (readMaxSize / cnt)) = offset i /\
     offset i = i * stride - (i * stride) mod 512 /\
     (512 | offset i) /\
     0 <= offset i <= T - S).
Proof.
  intros He S T cnt stride offset run.
  assert (HT : readMaxSize = T) by reflexivity.
  pose proof (repCount_pos S) as Hc.
  split; [exact HT | ]. split.
  { destruct (read_stride_bounds S 0 ltac:(lia)) as (E & _).
    unfold cnt. rewrite E, HT. reflexivity. }
  split.
  - pose proof (benchmark_read_offsets env f c fl start (fun _ => eq_refl)) as R.
    subst run. unfold cnt, S in *.
    destruct (benchmark_read f c fl env start) as [[[] | s] w']; cbn [fst snd].
    + destruct (R e He) as (m & Hm & Hd & Hp). exists m.
      split; [lia | split; [intros _; rewrite Hd by reflexivity; lia | exact Hp]].
    + destruct R as (_ & R). destruct (R e He) as (m & Hm & _ & Hp). exists m.
      split; [lia | split; [discriminate | exact Hp]].
  - intros i Hi. unfold offset, stride, cnt, S in *.
    destruct (read_stride_bounds (2 ^ e) i Hi) as (Hw & Hb & Hlt).
    rewrite HT in Hb, Hlt.
    destruct (mask512_spec (i * (T / repCount (2 ^ e))) ltac:(lia)) as (Hm & Hd & Hr).
    split; [rewrite (read_offset_eq e i Hi); unfold read_at; rewrite HT; reflexivity | ].
    split; [exact Hm | ]. split; [exact Hd | ]. split; [apply Hr | ].
    apply Z.le_trans with ((repCount (2 ^ e) - 1) * (T / repCount (2 ^ e))); [lia | ].
    subst T. each_exp He; vm_compute; discriminate.
Qed.

(** The read sweep on the all-success platform: the hundred reads of 512
    bytes and their offsets. *)
Lemma read_sweep_offsets_witness :
  exists m : nat,
    Z.of_nat m = 100 /\
    pread_offsets 512 (log (snd (benchmark_read default_filename None 0 ideal start)))
    = first_n (fun i => Z.land (i * (805306368 / 100)) (Z.lnot 511)) m.
Proof.
  destruct (read_sweep_offsets ideal default_filename None 0 9)
    as (_ & _ & (m & _ & Hd & Hp) & _).
  - unfold minExp, maxExp. lia.
  - exists m. split; [apply Hd; vm_compute; reflexivity | exact Hp].
Defined.



(** C3.  For every size [2^e] of the sweep.  A run of either sweep ends in
    one of two ways: it finishes, every checked call of it accepted, or it
    exits with -1 right after a call that failed, the log being accepted
    events up to that call and then its diagnostic; so an exit happens only
    after a failing call.  A sweep that finishes performed exactly
    [repCount (2^e)] transfers of the size, and no run performs more.  In
    every run each [pwrite] or [pread] of the size either transferred
    exactly that size or is followed at once by the [perror] diagnostic and
    [exit(-1)], whose status is not zero, with nothing after it.  On a
    platform where the calls succeed, both sweeps finish. *)
Theorem sweeps_transfer_or_exit (env : Env) (f : string) (c : option string)
    (fl e : Z) :
  minExp <= e <= maxExp ->
  let wr := benchmark_write f c fl env start in
  let rd := benchmark_read f c fl env start in
  (fst wr = Done tt ->
   List.length (pwrite_offsets (2 ^ e) (log (snd wr))) = Z.to_nat (repCount (2 ^ e))) /\
  (fst rd = Done tt ->
   List.length (pread_offsets (2 ^ e) (log (snd rd))) = Z.to_nat (repCount (2 ^ e))) /\
  (forall pre fd off r post,
     log (snd wr) = pre ++ Sys (Pwrite fd (2 ^ e) off) r :: post ->
     r = 2 ^ e \/
     (post = [Perror "Write"; Exit (-1)] /\ fst wr = Exited (-1))) /\
  (forall pre fd off r post,
     log (snd rd) = pre ++ Sys (Pread fd (2 ^ e) off) r :: post ->
     (wrap32 r = 2 ^ e /\ (-1 <= r <= 2 ^ e -> r = 2 ^ e)) \/
     (post = [Printf (ShortRead (2 ^ e) (to_int32 (wrap32 r)));
              Perror "Read"; Exit (-1)] /\ fst rd = Exited (-1))) /\
  exit_status (-1) <> 0 /\
  ((fst wr = Done tt /\ Forall accepted (log (snd wr))) \/
   (fst wr = Exited (-1) /\ stopped (log (snd wr)))) /\
  ((fst rd = Done tt /\ Forall accepted (log (snd rd))) \/
   (fst rd = Exited (-1) /\ stopped (log (snd rd)))) /\
  (List.length (pwrite_offsets (2 ^ e) (log (snd wr)))
   <= Z.to_nat (repCount (2 ^ e)))%nat /\
  (List.length (pread_offsets (2 ^ e) (log (snd rd)))
   <= Z.to_nat (repCount (2 ^ e)))%nat /\
  (obliging env -> fst wr = Done tt /\ fst rd = Done tt).
Proof.
  intros He wr rd.
  destruct (write_run_count env f c fl e He) as (Wle & Weq).
  destruct (read_run_count env f c fl e He) as (Rle & Req).
  split; [exact Weq | ]. split; [exact Req | ].
  split; [intros pre fd off r post Heq;
          exact (write_run_fail_fast env f c fl _ _ _ _ _ _ Heq) | ].
  split.
  { intros pre fd off r post Heq.
    destruct (read_run_fail_fast env f c fl _ _ _ _ _ _ Heq) as [H | H];
      [left | right; exact H].
    split; [exact H | apply accepted_read; assumption]. }
  split; [discriminate | ].
  split; [apply write_run_ends | ]. split; [apply read_run_ends | ].
  split; [exact Wle | ]. split; [exact Rle | ].
  intros Hob. split;
    [apply benchmark_write_obliged | apply benchmark_read_obliged]; exact Hob.
Qed.

(** On the all-success platform both sweeps finish: a hundred writes and a
    hundred reads of 512 bytes. *)
Lemma sweeps_transfer_or_exit_witness :
  List.length
    (pwrite_offsets 512
       (log (snd (benchmark_write default_filename None 0 ideal start))))
  = 100%nat /\
  List.length
    (pread_offsets 512
       (log (snd (benchmark_read default_filename None 0 ideal start))))
  = 100%nat.
Proof.
  destruct (sweeps_transfer_or_exit ideal default_filename None 0 9)
    as (Hw & Hr & _ & _ & _ & _ & _ & _ & _ & Hob).
  - unfold minExp, maxExp. lia.
  - destruct Hob as (Dw & Dr); [repeat split; intros; discriminate | ].
    split; [apply Hw, Dw | apply Hr, Dr].
Defined.

(** C4.  In every run of the write sweep and for every size [S = 2^e] of
    it, the writes of size [S] go, in order, to the offsets [0, S, 2 S, ...]:
    write [k] targets offset [k * S], the file position having advanced by
    [S] after each successful write; the byte ranges of two different writes
    of the size do not overlap. *)
Theorem write_offsets_advance (env : Env) (f : string) (c : option string)
    (fl e : Z) :
  minExp <= e <= maxExp ->
  let S := 2 ^ e in
  let run := benchmark_write f c fl env start in
  exists m : nat,
    Z.of_nat m <= repCount S /\
    (fst run = Done tt -> Z.of_nat m = repCount S) /\
    pwrite_offsets S (log (snd run)) = first_n (fun k => k * S) m /\
    (forall k, 0 <= k < repCount S -> advance (k * S) S = (k + 1) * S) /\
    (forall j k, 0 <= j < k -> j * S + S <= k * S).
Proof.
  intros He S run.
  assert (HS : 0 < S) by (apply Z.pow_pos_nonneg; unfold minExp in He; lia).
  pose proof (repCount_pos S) as Hc.
  pose proof (benchmark_write_offsets env f c fl start (fun _ => eq_refl)) as O.
  assert (G : exists m : nat,
            Z.of_nat m <= repCount S /\
            (fst run = Done tt -> Z.of_nat m = repCount S) /\
            pwrite_offsets S (log (snd run)) = first_n (fun k => k * S) m).
  { subst run. unfold S in *.
    destruct (benchmark_write f c fl env start) as [[[] | s] w]; cbn [fst snd].
    - destruct (O e He) as (m & Hm & Hd & Hp). exists m.
      split; [lia | split; [intros _; rewrite Hd by reflexivity; lia | exact Hp]].
    - destruct O as (_ & O). destruct (O e He) as (m & Hm & _ & Hp). exists m.
      split; [lia | split; [discriminate | exact Hp]]. }
  destruct G as (m & G1 & G2 & G3). exists m.
  split; [exact G1 | split; [exact G2 | split; [exact G3 | split]]].
  - intros k Hk. apply write_pos_no_wrap; assumption.
  - intros j k Hjk. nia.
Qed.

(** The write sweep on the all-success platform: the hundred writes of 512
    bytes are at 0, 512, 1024, ... *)
Lemma write_offsets_advance_witness :
  exists m : nat,
    Z.of_nat m = 100 /\
    pwrite_offsets 512
      (log (snd (benchmark_write default_filename None 0 ideal start)))
    = first_n (fun k => k * 512) m.
Proof.
  destruct (write_offsets_advance ideal default_filename None 0 9)
    as (m & _ & Hd & Hp & _).
  - unfold minExp, maxExp. lia.
  - exists m. split; [apply Hd; vm_compute; reflexivity | exact Hp].
Defined.

(** C5.  The bandwidth printed for write size [S = 2^e] with repetition
    count [c] is [S] divided by the mean time of an operation, divided by
    1e6, the mean being the converted sum of the accumulated write cycles
    [W] and the accumulated fsync cycles [F] over [c]; the sum covers, for
    each repetition, the whole interval from before the write to after the
    sync. *)
Theorem write_bandwidth_reported (env : Env) (cyclesPerSec : Q) (f : string)
    (fl e : Z) (w w' : World) :
  minExp <= e <= maxExp ->
  write_size f fl e tt env w = (Done tt, w') ->
  let S := 2 ^ e in
  let c := repCount S in
  let W := wrap64 (sum_upto (Z.to_nat c) (write_delta env (ticks w))) in
  let F := wrap64 (sum_upto (Z.to_nat c) (fsync_delta env (ticks w))) in
  let total := wrap64 (W + F) in
  exists pre bandwidth writeTime fsyncTime,
    log w' = pre ++ [Printf (WriteRow S bandwidth writeTime fsyncTime)] /\
    bandwidth =
      DDiv (DDiv (DOfInt S) (DDiv (DToSeconds total) (DOfInt c))) D1e6 /\
    total = wrap64 (sum_upto (Z.to_nat c) (whole_delta env (ticks w))) /\
    (dval cyclesPerSec bandwidth ==
     inject_Z S / (toSeconds cyclesPerSec total / inject_Z c) / inject_Z 1000000)%Q.
Proof.
  intros He Hrun S c W F total.
  destruct (write_size_row env f fl e w w' He Hrun) as (pre & Hlog).
  cbn zeta in Hlog. fold S c W F in Hlog.
  eexists pre, _, _, _. split; [exact Hlog | ].
  split; [reflexivity | split; [ | reflexivity]].
  unfold total, W, F. rewrite wrap64_add. f_equal.
  apply sum_upto_add. intros j. unfold write_delta, fsync_delta, whole_delta. ring.
Qed.

(** With a counter that advances by 1000 between readings, the hundred
    writes of 512 bytes and their syncs take 200000 cycles. *)
Lemma write_bandwidth_reported_witness :
  exists pre writeTime fsyncTime,
    log (snd (write_size default_filename 0 9 tt ideal start)) =
    pre ++ [Printf (WriteRow 512
                      (DDiv (DDiv (DOfInt 512)
                                  (DDiv (DToSeconds 200000) (DOfInt 100))) D1e6)
                      writeTime fsyncTime)].
Proof.
  destruct (write_bandwidth_reported ideal 1 default_filename 0 9 start
              (snd (write_size default_filename 0 9 tt ideal start)))
    as (pre & bw & wt & ft & Hlog & Hbw & _).
  - unfold minExp, maxExp. lia.
  - vm_compute. reflexivity.
  - exists pre, wt, ft. rewrite Hlog, Hbw. vm_compute. reflexivity.
Defined.

(** C6, as amended.  In every run of either sweep, at every operation on a
    descriptor exactly one buffer and exactly one descriptor are alive, and
    a sweep that finishes leaves neither.  In the write sweep the descriptor
    opened for a transfer size is closed before the first transfer of
    another size.  In the read sweep the single descriptor is opened before
    the first size and not closed before any read. *)
Theorem sweep_resources (env : Env) (f : string) (c : option string) (fl : Z) :
  let wr := benchmark_write f c fl env start in
  let rd := benchmark_read f c fl env start in
  at_each one_of_each (log (snd wr)) /\
  at_each one_of_each (log (snd rd)) /\
  closed_between_sizes (log (snd wr)) /\
  at_each open_throughout (log (snd rd)) /\
  (fst wr = Done tt ->
   live_fds (log (snd wr)) = [] /\ live_bufs (log (snd wr)) = 0%nat) /\
  (fst rd = Done tt ->
   live_fds (log (snd rd)) = [] /\ live_bufs (log (snd rd)) = 0%nat).
Proof.
  intros wr rd.
  pose proof (benchmark_write_resources env f c fl start resources_start) as RW.
  pose proof (benchmark_read_resources env f c fl start resources_start) as RR.
  pose proof (benchmark_write_closes env f c fl start sized_start) as CW.
  pose proof (benchmark_read_keeps_open env f c fl start kept_open_start) as KR.
  subst wr rd.
  destruct (benchmark_write f c fl env start) as [[[] | sw] ww];
    destruct (benchmark_read f c fl env start) as [[[] | sr] wr];
    cbn [fst snd];
    repeat match goal with
      | H : _ = -1 /\ _ |- _ => destruct H as (_ & H)
      | H : tracked _ |- _ => destruct H as (? & ? & H)
      | H : between_sizes _ |- _ => destruct H as (? & H)
      end;
    (split; [apply RW | split; [apply RR | split;
       [apply settled_closed_between, CW | split; [exact KR | split]]]]);
    first [discriminate | intros _; first [apply RW | apply RR]].
Qed.

(** The write sweep on the all-success platform leaves no descriptor and no
    buffer. *)
Lemma sweep_resources_witness :
  live_fds (log (snd (benchmark_write default_filename None 0 ideal start))) = [] /\
  live_bufs (log (snd (benchmark_write default_filename None 0 ideal start))) = 0%nat.
Proof.
  destruct (sweep_resources ideal default_filename None 0) as (_ & _ & _ & _ & H & _).
  apply H. vm_compute. reflexivity.
Defined.

(** C6 as stated fails for the read sweep: on a platform where every call
    succeeds, nothing is closed between the last read of 512 bytes and the
    first read of 1024 bytes. *)
Lemma read_sweep_keeps_descriptor :
  ~ closed_between_sizes
      (log (snd (benchmark_read default_filename None 0 ideal start))).
Proof.
  intros H.
  set (L := log (snd (benchmark_read default_filename None 0 ideal start))) in H.
  assert (E : L = firstn 106 L ++ nth 106 L Free
                    :: [nth 107 L Free] ++ nth 108 L Free :: skipn 109 L)
    by (vm_compute; reflexivity).
  assert (H1 : xfer_size (nth 106 L Free) = Some 512) by (vm_compute; reflexivity).
  assert (H2 : xfer_size (nth 108 L Free) = Some 1024) by (vm_compute; reflexivity).
  destruct (H _ _ _ _ _ 512 1024 E H1 H2 ltac:(discriminate)) as (fd & r & [G | []]).
  vm_compute in G. discriminate G.
Qed.

(** C7, as amended.  A write sweep that finishes has, for each transfer
    size in turn, opened the target, made the transfers of the size, closed
    the descriptor and called [remove] on the target; a read sweep that
    finishes has opened the target once, made the transfers of all sizes,
    closed the descriptor and called [remove] once.  When the program
    completes normally its last call is that [remove], and no file is at the
    target path if the call succeeded. *)
Theorem target_file_removed (env : Env) (argv : list string) :
  let f := main_filename argv in
  let run := main argv env start in
  let wr := benchmark_write f main_comment main_flags env start in
  let rd := benchmark_read f main_comment main_flags env start in
  (fst wr = Done tt -> skeleton (log (snd wr)) = write_ops f) /\
  (fst rd = Done tt -> skeleton (log (snd rd)) = read_ops f) /\
  (forall z, fst run = Done z ->
     skeleton (log (snd run)) = write_ops f ++ read_ops f /\
     exists pre fd r1 r,
       log (snd run) =
       pre ++ [Sys (Close fd) r1; Sys (Remove f) r; Printf Blank; Free] /\
       (r = 0 -> forall before,
          file_present f before (log (snd run)) = false)).
Proof.
  intros f run wr rd. split; [ | split].
  - intros Hd. subst wr.
    pose proof (benchmark_write_skeleton env f main_comment main_flags start) as S.
    destruct (benchmark_write _ _ _ env start) as [[[] | s] w]; [exact S | discriminate].
  - intros Hd. subst rd.
    pose proof (benchmark_read_skeleton env f main_comment main_flags start) as S.
    destruct (benchmark_read _ _ _ env start) as [[[] | s] w]; [exact S | discriminate].
  - intros z Hd.
    destruct (main_completes env argv z Hd) as (_ & Hs & pre & fd & r1 & r & Hl).
    fold f run in Hs, Hl. split; [exact Hs | ].
    exists pre, fd, r1, r. split; [exact Hl | ]. intros -> before.
    rewrite Hl. unfold file_present. rewrite fold_left_app.
    cbn [fold_left present_step].
    rewrite String.eqb_refl, Z.eqb_refl. reflexivity.
Qed.

(** The write sweep of the program on the all-success platform. *)
Lemma target_file_removed_witness :
  skeleton (log (snd (benchmark_write default_filename main_comment main_flags
                        ideal start)))
  = write_ops default_filename.
Proof.
  destruct (target_file_removed ideal ["Benchmark"]) as (H & _).
  apply H. vm_compute. reflexivity.
Defined.

(** C7 as stated fails: when [remove] fails, its result being ignored, the
    program completes normally and the file is still there. *)
Lemma file_left_behind :
  let run := main ["Benchmark"] stuck start in
  fst run = Done 0 /\
  file_present default_filename false (log (snd run)) = true.
Proof. vm_compute. split; reflexivity. Qed.

(** C8.  With two or more positional arguments ([argc >= 3]) the program
    prints the description and the usage line and exits with status -1,
    having made no library call.  Otherwise it runs the two sweeps on one
    file name: the argument when there is exactly one, the default
    [/tmp/benchmark.tmp] when there is none; every [open] and [remove] of
    the run names that file. *)
Theorem main_arguments (env : Env) (argv : list string) :
  let argc := Z.of_nat (List.length argv) in
  let run := main argv env start in
  (3 <= argc ->
   run = (Exited (-1), mkWorld 0 0 [Printf Description; Printf Usage; Exit (-1)]) /\
   exit_status (-1) <> 0) /\
  (argc < 3 ->
   exists f,
     (forall prog path, argv = [prog; path] -> f = path) /\
     (argc < 2 -> f = "/tmp/benchmark.tmp") /\
     run = (benchmark_write f main_comment main_flags ;;
            benchmark_read f main_comment main_flags ;;
            ret 0) env start /\
     Forall (path_is f) (log (snd run)) /\
     (forall z, fst run = Done z ->
        skeleton (log (snd run)) = write_ops f ++ read_ops f)).
Proof.
  intros argc run. split.
  - intros Hn. subst run. rewrite main_eq. fold argc.
    destruct (Z.leb_spec 3 argc); [ | lia]. split; [reflexivity | discriminate].
  - intros Hn. exists (main_filename argv). split; [ | split; [ | split; [ | split]]].
    + intros prog path ->. reflexivity.
    + intros H2. unfold main_filename. fold argc.
      destruct (Z.eqb_spec argc 2); [lia | reflexivity].
    + subst run. unfold main. fold argc.
      destruct (Z.leb_spec 3 argc); [lia | ]. reflexivity.
    + apply main_paths. exact Hn.
    + intros z Hd. apply (main_completes env argv z Hd).
Qed.

(** Two positional arguments, and one. *)
Lemma main_arguments_witness :
  main ["Benchmark"; "a"; "b"] ideal start
  = (Exited (-1), mkWorld 0 0 [Printf Description; Printf Usage; Exit (-1)]) /\
  Forall (path_is "/dev/sdb") (log (snd (main ["Benchmark"; "/dev/sdb"] ideal start))).
Proof.
  split.
  - destruct (main_arguments ideal ["Benchmark"; "a"; "b"]) as (H & _).
    apply H. vm_compute. discriminate.
  - destruct (main_arguments ideal ["Benchmark"; "/dev/sdb"]) as (_ & H).
    destruct H as (f & Hf & _ & _ & Hp & _); [vm_compute; reflexivity | ].
    pose proof (Hf "Benchmark" "/dev/sdb" eq_refl) as E. subst f. exact Hp.
Defined.

(** C9.  The result of every [fsync] is ignored.  Replacing the answers of
    the [fsync] calls by any others (failures included) changes neither the
    outcome of the program nor its log, up to the answers recorded for
    [fsync] themselves: the same calls, the same printed rows, no diagnostic
    and no exit after an [fsync].  In the write sweep the fsync time printed
    for a size is the sum of the cycles spent in its syncs, whatever they
    answered. *)
Theorem fsync_result_ignored (env : Env) (r : nat -> Z) (argv : list string)
    (f : string) (fl e : Z) (w w' : World) :
  let env' := with_fsync r env in
  let a := main argv env' start in
  let b := main argv env start in
  fst a = fst b /\
  map forget_fsync (log (snd a)) = map forget_fsync (log (snd b)) /\
  no_fatal_fsync (log (snd a)) /\
  (minExp <= e <= maxExp ->
   write_size f fl e tt env' w = (Done tt, w') ->
   let c := repCount (2 ^ e) in
   let F := wrap64 (sum_upto (Z.to_nat c) (fsync_delta env (ticks w))) in
   exists pre bandwidth writeTime,
     log w' = pre ++ [Printf (WriteRow (2 ^ e) bandwidth writeTime
                                (DDiv (DToSeconds F) (DOfInt c)))]).
Proof.
  intros env' a b.
  pose proof (indep_main r env argv start start
                (conj eq_refl (conj eq_refl eq_refl))) as (Ho & _ & _ & Hl).
  split; [exact Ho | split; [exact Hl | split]].
  - subst a. pose proof (main_checked env' argv) as C.
    destruct (main argv env' start) as [[z | s] wa]; cbn [snd].
    + apply checked_no_fatal_fsync, C.
    + destruct C as (_ & [C | C]).
      * apply aborted_no_fatal_fsync, C.
      * rewrite C. intros pre fd r0 post Heq.
        destruct pre as [| x1 [| x2 [| x3 [| x4 pre]]]]; discriminate.
  - intros He Hrun c F.
    destruct (write_size_row env' f fl e w w' He Hrun) as (pre & Hlog).
    eexists pre, _, _. exact Hlog.
Qed.

(** Every [fsync] failing: the fsync time of the 512-byte row is still the
    100000 cycles spent in the syncs. *)
Lemma fsync_result_ignored_witness :
  exists pre bandwidth writeTime,
    log (snd (write_size default_filename 0 9 tt
                (with_fsync (fun _ => -1) ideal) start)) =
    pre ++ [Printf (WriteRow 512 bandwidth writeTime
                      (DDiv (DToSeconds 100000) (DOfInt 100)))].
Proof.
  destruct (fsync_result_ignored ideal (fun _ => -1) ["Benchmark"]
              default_filename 0 9 start
              (snd (write_size default_filename 0 9 tt
                      (with_fsync (fun _ => -1) ideal) start)))
    as (_ & _ & _ & H).
  destruct H as (pre & bw & wt & Hlog).
  - unfold minExp, maxExp. lia.
  - vm_compute. reflexivity.
  - exists pre, bw, wt. rewrite Hlog. vm_compute. reflexivity.
Defined.

(** C10.  Under the configured constants no offset computation wraps.  In
    the write sweep the [uint32_t] file position after [k <= count] writes
    is [k * S], at most [count * S <= 3 * 2^28 < 2^32].  In the read sweep
    [T = max (3 * 2^28) (100 * 2^20)] is computed in [int] without overflow,
    and for [i < count] the product [i * (T / count)] is at most
    [(count - 1) * (T / count) < 2^31], so that the offset read back as an
    [int] is the product with its low nine bits cleared. *)
Theorem offsets_do_not_overflow (e : Z) :
  minExp <= e <= maxExp ->
  let S := wrap32 (Z.shiftl 1 e) in
  let count := repCount S in
  let T := Z.max (3 * 2 ^ 28) (100 * 2 ^ 20) in
  (forall k : nat, Z.of_nat k <= count ->
     Nat.iter k (fun filePos => advance filePos S) 0 = Z.of_nat k * S /\
     Z.of_nat k * S <= count * S) /\
  count * S <= 3 * 2 ^ 28 /\ 3 * 2 ^ 28 < 2 ^ 32 /\
  readMaxSize = T /\
  (forall i, 0 <= i < count ->
     let stride := T / count in
     wrap32 (readMaxSize / count) = stride /\
     wrap32 (i * stride) = i * stride /\
     0 <= i * stride <= (count - 1) * stride /\
     (count - 1) * stride < 2 ^ 31 /\
     read_offset i (wrap32 (readMaxSize / count)) = Z.land (i * stride) (Z.lnot 511) /\
     0 <= read_offset i (wrap32 (readMaxSize / count)) < 2 ^ 31).
Proof.
  intros He S count T.
  assert (HS : S = 2 ^ e) by (apply writeSize_pow2; exact He).
  assert (HT : readMaxSize = T) by reflexivity.
  assert (H0 : 0 < 2 ^ e) by (apply Z.pow_pos_nonneg; unfold minExp in He; lia).
  pose proof (write_extent e He) as Hx.
  unfold count in *. rewrite HS in *. clear HS.
  split; [ | split; [exact Hx | split; [reflexivity | split; [exact HT | ]]]].
  - induction k as [| k IH]; intros Hk.
    + cbn. split; [reflexivity | ]. nia.
    + destruct (IH ltac:(lia)) as (E & _).
      rewrite Nat.iter_succ, E, write_pos_no_wrap by (assumption || lia).
      split; [lia | nia].
  - intros i Hi. cbv zeta. set (stride := T / repCount (2 ^ e)).
    destruct (read_stride_bounds (2 ^ e) i Hi) as (Hw & Hb & Hlt).
    rewrite HT in Hw, Hb, Hlt. fold stride in Hw, Hb, Hlt.
    pose proof (read_offset_eq e i Hi) as Ho. unfold read_at in Ho.
    rewrite HT in Ho. fold stride in Ho.
    destruct (mask512_spec (i * stride) ltac:(lia)) as (_ & _ & Hr).
    rewrite HT. fold stride. rewrite Hw.
    split; [reflexivity | split; [ | split; [exact Hb | split; [exact Hlt | ]]]].
    + unfold wrap32. apply Z.mod_small. change (2 ^ 31) with 2147483648 in Hlt.
      change (2 ^ 32) with 4294967296. lia.
    + rewrite Hw in Ho. split; [exact Ho | ]. rewrite Ho. lia.
Qed.

(** A hundred writes of 512 bytes leave the file position at 51200. *)
Lemma offsets_do_not_overflow_witness :
  Nat.iter 100 (fun filePos => advance filePos 512) 0 = 51200.
Proof.
  destruct (offsets_do_not_overflow 9) as (H & _).
  - unfold minExp, maxExp. lia.
  - destruct (H 100%nat) as (E & _); [vm_compute; discriminate | exact E].
Defined.

(** * Further properties of the sweeps and of the program *)

(** ** Completion on an obliging platform *)

(** X1.  On a platform where allocation, [open] and the writes succeed and
    every [pread] that ends within the pre-populated file returns the count
    asked, the program run with at most one argument completes and returns
    0: no read of the sweep runs past the file. *)
Theorem main_completes_when_obliged (env : Env) (argv : list string) :
  obliging env ->
  Z.of_nat (List.length argv) < 3 ->
  fst (main argv env start) = Done 0 /\
  skeleton (log (snd (main argv env start)))
  = write_ops (main_filename argv) ++ read_ops (main_filename argv).
Proof.
  intros Hob Hn.
  assert (D : fst (main argv env start) = Done 0).
  { rewrite main_eq. destruct (Z.leb_spec 3 (Z.of_nat (List.length argv))); [lia | ].
    pose proof (benchmark_write_obliged env (main_filename argv) main_comment
                  main_flags start Hob) as W.
    destruct (benchmark_write _ _ _ env start) as [[[] | s] w1]; [ | discriminate].
    pose proof (benchmark_read_obliged env (main_filename argv) main_comment
                  main_flags w1 Hob) as R.
    destruct (benchmark_read _ _ _ env w1) as [[[] | s] w2]; [ | discriminate].
    reflexivity. }
  split; [exact D | apply (main_completes env argv 0 D)].
Qed.

(** The program on the all-success platform, with the default file. *)
Lemma main_completes_when_obliged_witness :
  fst (main ["Benchmark"] ideal start) = Done 0.
Proof.
  apply (main_completes_when_obliged ideal ["Benchmark"]).
  - repeat split; intros; discriminate.
  - vm_compute. reflexivity.
Defined.

(** ** The rows *)

Lemma read_reps_cycles (env : Env) (fd size incr : Z) (n : nat) (w : World) :
  match for_loop n 0 (read_rep fd size incr) 0 env w with
  | (Done cyc, w') => cyc = wrap64 (sum_upto n (read_delta env (ticks w)))
  | (Exited _, _) => True
  end.
Proof.
  apply for_loop_rule with
    (I := fun j cyc w1 =>
            0 <= j /\ ticks w1 = (ticks w + 2 * Z.to_nat j)%nat /\
            cyc = wrap64 (sum_upto (Z.to_nat j) (read_delta env (ticks w)))).
  - cbn. repeat split; lia.
  - intros j cyc w1 Hj (Hj0 & Ht & Hc).
    rewrite read_rep_eq. cbn zeta. case_if; [ | exact I].
    cbn [ticks]. rewrite Hc, Ht.
    replace (Z.to_nat (j + 1)) with (S (Z.to_nat j)) by lia.
    cbn [sum_upto]. unfold read_delta.
    replace (ticks w + 2 * Z.to_nat j + 1)%nat with (S (ticks w + 2 * Z.to_nat j)) by lia.
    rewrite !wrap64_add. repeat split; lia.
  - intros cyc w1 (_ & _ & Hc). rewrite Z.add_0_l, Nat2Z.id in Hc. exact Hc.
Qed.

(** X2.  The row the read sweep prints for size [S = 2^e] with repetition
    count [c]: the latency is the converted sum [R] of the cycles between
    the two counter readings around each [pread], over [c], and the
    bandwidth is [S] over that latency, over 1e6. *)
Theorem read_row_reported (env : Env) (cyclesPerSec : Q) (fd e : Z)
    (w w' : World) :
  minExp <= e <= maxExp ->
  read_size fd e tt env w = (Done tt, w') ->
  let S := 2 ^ e in
  let c := repCount S in
  let R := wrap64 (sum_upto (Z.to_nat c) (read_delta env (ticks w))) in
  exists pre bandwidth readTime,
    log w' = pre ++ [Printf (ReadRow S bandwidth readTime)] /\
    readTime = DDiv (DToSeconds R) (DOfInt c) /\
    bandwidth = DDiv (DDiv (DOfInt S) readTime) D1e6 /\
    (dval cyclesPerSec bandwidth ==
     inject_Z S / (toSeconds cyclesPerSec R / inject_Z c) / inject_Z 1000000)%Q.
Proof.
  intros He Hrun S c R. rewrite read_size_eq in Hrun. cbn zeta in Hrun.
  rewrite writeSize_pow2 in Hrun by assumption.
  match type of Hrun with
  | context [for_loop ?n 0 (read_rep ?fd0 ?size ?incr) 0 env ?w0] =>
      pose proof (read_reps_cycles env fd0 size incr n w0) as C;
      destruct (for_loop n 0 (read_rep fd0 size incr) 0 env w0)
        as [[cyc | s] w1]; [ | discriminate]
  end.
  inversion Hrun; subst w'; clear Hrun. cbn [log].
  eexists (log w1), _, _. unfold read_row. rewrite C. fold S c R.
  split; [reflexivity | split; [reflexivity | split; reflexivity]].
Qed.

(** With a counter that advances by 1000 between readings, the hundred
    reads of 512 bytes take 100000 cycles. *)
Lemma read_row_reported_witness :
  exists pre bandwidth,
    log (snd (read_size 3 9 tt ideal start)) =
    pre ++ [Printf (ReadRow 512 bandwidth
                      (DDiv (DToSeconds 100000) (DOfInt 100)))].
Proof.
  destruct (read_row_reported ideal 1 3 9 start (snd (read_size 3 9 tt ideal start)))
    as (pre & bw & rt & Hlog & Hrt & _).
  - unfold minExp, maxExp. lia.
  - vm_compute. reflexivity.
  - exists pre, bw. rewrite Hlog, Hrt. vm_compute. reflexivity.
Defined.

(** ** The outline of a run *)

Lemma outline_app (l l' : list Event) : outline (l ++ l') = outline l ++ outline l'.
Proof. apply flat_map_app. Qed.

Lemma outline_upto_step (e k : Z) :
  0 <= k -> outline_upto e k ++ [MXfer (2 ^ e)] = outline_upto e (k + 1).
Proof.
  intros Hk. unfold outline_upto. rewrite repeat_next, app_assoc by assumption.
  reflexivity.
Qed.

Lemma outline_upto_next (e : Z) :
  minExp <= e ->
  outline_upto e (repCount (2 ^ e)) ++ [MRow (2 ^ e)] = outline_upto (e + 1) 0.
Proof.
  intros He. unfold outline_upto.
  rewrite exps_below_next, flat_map_app by assumption.
  cbn [flat_map]. unfold size_done. change (Z.to_nat 0) with 0%nat. cbn [repeat].
  rewrite !app_nil_r, <- !app_assoc. reflexivity.
Qed.

Lemma outline_upto_start : outline_upto minExp 0 = [].
Proof. reflexivity. Qed.

Lemma header_outline (f : string) (c : option string) :
  outline (write_header f c) = [] /\ outline (read_header f c) = [].
Proof. destruct c; split; reflexivity. Qed.

Lemma outlined_intro (l : list Event) (e k : Z) :
  minExp <= e <= maxExp + 1 -> 0 <= k <= repCount (2 ^ e) ->
  outline l = outline_upto e k -> outlined l.
Proof. intros He Hk H. exists e, k. auto. Qed.

Lemma benchmark_write_outline (env : Env) (f : string) (c : option string)
    (fl : Z) (w : World) :
  outline (log w) = [] ->
  match benchmark_write f c fl env w with
  | (Done _, w') => outline (log w') = outline_upto (maxExp + 1) 0
  | (Exited s, w') => s = -1 /\ outlined (log w')
  end.
Proof.
  intros Hw.
  assert (Hh : outline (log w ++ write_header f c) = []).
  { rewrite outline_app, Hw, (proj1 (header_outline f c)). reflexivity. }
  apply write_sweep_rule with
    (J := fun e l => outline l = outline_upto e 0)
    (K := fun e _ k l => outline l = outline_upto e k)
    (E := outlined)
    (Q := fun l => outline l = outline_upto (maxExp + 1) 0).
  - rewrite outline_app, Hh. reflexivity.
  - intros m _. apply outlined_intro with (e := minExp) (k := 0).
    + unfold minExp, maxExp. lia.
    + pose proof (repCount_pos (2 ^ minExp)). lia.
    + rewrite outline_app, Hh. reflexivity.
  - intros e l fd He HJ _. rewrite outline_app, HJ. apply app_nil_r.
  - intros e l He HJ. apply outlined_intro with (e := e) (k := 0).
    + lia.
    + pose proof (repCount_pos (2 ^ e)). lia.
    + rewrite outline_app, HJ. apply app_nil_r.
  - intros e fd k l r He Hk HK. rewrite outline_app, HK.
    apply outline_upto_step. lia.
  - intros e fd k l r He Hk HK Hr. apply outlined_intro with (e := e) (k := k + 1).
    + lia.
    + lia.
    + rewrite outline_app, HK. apply outline_upto_step. lia.
  - intros e fd l r1 r2 v He HK. rewrite outline_app, HK.
    apply outline_upto_next. lia.
  - intros l HJ. rewrite outline_app, HJ. apply app_nil_r.
Qed.

Lemma benchmark_read_outline (env : Env) (f : string) (c : option string)
    (fl : Z) (w : World) :
  outline (log w) = [] ->
  match benchmark_read f c fl env w with
  | (Done _, w') => outline (log w') = outline_upto (maxExp + 1) 0
  | (Exited s, w') => s = -1 /\ outlined (log w')
  end.
Proof.
  intros Hw.
  assert (Hh : outline (log w ++ read_header f c) = []).
  { rewrite outline_app, Hw, (proj2 (header_outline f c)). reflexivity. }
  assert (Hs : forall tail, outline tail = [] ->
            outlined ((log w ++ read_header f c) ++ tail)).
  { intros tail Ht. apply outlined_intro with (e := minExp) (k := 0).
    - unfold minExp, maxExp. lia.
    - pose proof (repCount_pos (2 ^ minExp)). lia.
    - rewrite outline_app, Hh, Ht. reflexivity. }
  apply read_sweep_rule with
    (J := fun _ e l => outline l = outline_upto e 0)
    (K := fun _ e k l => outline l = outline_upto e k)
    (E := outlined)
    (Q := fun l => outline l = outline_upto (maxExp + 1) 0).
  - intros fd r _. rewrite outline_app, Hh. reflexivity.
  - intros m _. apply Hs. reflexivity.
  - apply Hs. reflexivity.
  - intros fd n _ _. apply Hs. reflexivity.
  - intros fd e l He HJ. exact HJ.
  - intros fd e k l r He Hk HK Hr. rewrite outline_app, HK.
    apply outline_upto_step. lia.
  - intros fd e k l r He Hk HK Hr. apply outlined_intro with (e := e) (k := k + 1).
    + lia.
    + lia.
    + rewrite outline_app, HK. apply outline_upto_step. lia.
  - intros fd e l cyc He HK. rewrite outline_app, HK.
    apply outline_upto_next. lia.
  - intros fd l r1 r2 HJ. rewrite outline_app, HJ. apply app_nil_r.
Qed.

(** X4.  No partial results: in every run of either sweep the transfers and
    the printed rows are, in order, the repetitions of each finished size
    followed by its one row, smallest size first, and then at most the
    repetitions of one more size without a row; a sweep that finishes has
    the rows of all twenty sizes. *)
Theorem rows_follow_repetitions (env : Env) (f : string) (c : option string)
    (fl : Z) :
  let wr := benchmark_write f c fl env start in
  let rd := benchmark_read f c fl env start in
  (exists e k,
     minExp <= e <= maxExp + 1 /\ 0 <= k <= repCount (2 ^ e) /\
     outline (log (snd wr)) = flat_map size_done (exps_below e)
                              ++ repeat (MXfer (2 ^ e)) (Z.to_nat k) /\
     (fst wr = Done tt -> e = maxExp + 1 /\ k = 0)) /\
  (exists e k,
     minExp <= e <= maxExp + 1 /\ 0 <= k <= repCount (2 ^ e) /\
     outline (log (snd rd)) = flat_map size_done (exps_below e)
                              ++ repeat (MXfer (2 ^ e)) (Z.to_nat k) /\
     (fst rd = Done tt -> e = maxExp + 1 /\ k = 0)).
Proof.
  intros wr rd.
  pose proof (benchmark_write_outline env f c fl start eq_refl) as OW.
  pose proof (benchmark_read_outline env f c fl start eq_refl) as OR.
  subst wr rd. split.
  - destruct (benchmark_write f c fl env start) as [[[] | s] w]; cbn [fst snd].
    + exists (maxExp + 1), 0. split; [unfold minExp, maxExp; lia | ].
      split; [pose proof (repCount_pos (2 ^ (maxExp + 1))); lia | ].
      split; [exact OW | auto].
    + destruct OW as (_ & e & k & He & Hk & Ho). exists e, k.
      split; [exact He | split; [exact Hk | split; [exact Ho | discriminate]]].
  - destruct (benchmark_read f c fl env start) as [[[] | s] w]; cbn [fst snd].
    + exists (maxExp + 1), 0. split; [unfold minExp, maxExp; lia | ].
      split; [pose proof (repCount_pos (2 ^ (maxExp + 1))); lia | ].
      split; [exact OR | auto].
    + destruct OR as (_ & e & k & He & Hk & Ho). exists e, k.
      split; [exact He | split; [exact Hk | split; [exact Ho | discriminate]]].
Qed.

(** The write sweep on the all-success platform: every size with its row. *)
Lemma rows_follow_repetitions_witness :
  outline (log (snd (benchmark_write default_filename None 0 ideal start)))
  = flat_map size_done (exps_below (maxExp + 1)).
Proof.
  destruct (rows_follow_repetitions ideal default_filename None 0)
    as ((e & k & _ & _ & Ho & Hd) & _).
  destruct Hd as (-> & ->); [vm_compute; reflexivity | ].
  rewrite Ho. apply app_nil_r.
Defined.

(** ** What a failed run leaves *)

Lemma file_present_app (f : string) (b : bool) (l evs : list Event) :
  file_present f b (l ++ evs) = fold_left (present_step f) evs (file_present f b l).
Proof. apply fold_left_app. Qed.

Lemma file_present_open (f : string) (b : bool) (l : list Event) (fl m fd : Z) :
  fd <> -1 -> file_present f b (l ++ [Sys (Open f fl m) fd]) = true.
Proof.
  intros Hfd. rewrite file_present_app. cbn [fold_left present_step].
  rewrite String.eqb_refl. apply Z.eqb_neq in Hfd. rewrite Hfd. reflexivity.
Qed.

Lemma setup_failed_intro (pre : list Event) (c : Call) (r : Z) (msg : string) :
  match c with Posix_memalign _ _ | Open _ _ _ => True | _ => False end ->
  setup_failed (pre ++ [Sys c r; Perror msg; Exit (-1)]).
Proof. intros H. exists pre, c, r, msg. auto. Qed.

Lemma benchmark_write_leaves_file (env : Env) (f : string) (c : option string)
    (fl : Z) (before : bool) (w : World) :
  match benchmark_write f c fl env w with
  | (Done _, w') => True
  | (Exited s, w') =>
      s = -1 /\ (file_present f before (log w') = true \/ setup_failed (log w'))
  end.
Proof.
  apply write_sweep_rule with
    (J := fun _ _ => True)
    (K := fun _ _ _ l => file_present f before l = true)
    (E := fun l => file_present f before l = true \/ setup_failed l)
    (Q := fun _ => True); auto.
  - intros m _. right. apply setup_failed_intro. exact I.
  - intros e l fd _ _ Hfd. apply file_present_open, Hfd.
  - intros e l _ _. right. apply setup_failed_intro. exact I.
  - intros e fd k l r _ _ HK. rewrite file_present_app. exact HK.
  - intros e fd k l r _ _ HK _. left. rewrite file_present_app. exact HK.
Qed.

Lemma benchmark_read_leaves_file (env : Env) (f : string) (c : option string)
    (fl : Z) (before : bool) (w : World) :
  match benchmark_read f c fl env w with
  | (Done _, w') => True
  | (Exited s, w') =>
      s = -1 /\ (file_present f before (log w') = true \/ setup_failed (log w'))
  end.
Proof.
  apply read_sweep_rule with
    (J := fun _ _ l => file_present f before l = true)
    (K := fun _ _ _ l => file_present f before l = true)
    (E := fun l => file_present f before l = true \/ setup_failed l)
    (Q := fun _ => True); auto.
  - intros fd r Hfd. rewrite file_present_app. cbn [fold_left present_step].
    rewrite String.eqb_refl, (proj2 (Z.eqb_neq _ _) Hfd). reflexivity.
  - intros m _. right. apply setup_failed_intro. exact I.
  - right.
    change [Sys (Posix_memalign 512 readMaxSize) 0;
            Sys (Open f (Z.lor (Z.lor O_RDWR O_CREAT) fl) 438) (-1);
            Perror "Opening file failed"; Exit (-1)]
      with ([Sys (Posix_memalign 512 readMaxSize) 0]
            ++ [Sys (Open f (Z.lor (Z.lor O_RDWR O_CREAT) fl) 438) (-1);
                Perror "Opening file failed"; Exit (-1)]).
    rewrite app_assoc. apply setup_failed_intro. exact I.
  - intros fd n Hfd _. left. rewrite file_present_app. cbn [fold_left present_step].
    rewrite String.eqb_refl, (proj2 (Z.eqb_neq _ _) Hfd). reflexivity.
  - intros fd e k l r _ _ HK _. rewrite file_present_app. exact HK.
  - intros fd e k l r _ _ HK _. left. rewrite file_present_app. exact HK.
  - intros fd e l cyc _ HK. rewrite file_present_app. exact HK.
Qed.

(** X5.  A run that fails leaves the file behind: when either sweep exits
    early, then unless the failing call is the allocation or the [open]
    itself, a file is at the target path when the process exits (the exit
    paths call neither [close] nor [remove]). *)
Theorem failed_run_leaves_file (env : Env) (f : string) (c : option string)
    (fl : Z) (before : bool) (s : Z) :
  let wr := benchmark_write f c fl env start in
  let rd := benchmark_read f c fl env start in
  (fst wr = Exited s ->
   file_present f before (log (snd wr)) = true \/ setup_failed (log (snd wr))) /\
  (fst rd = Exited s ->
   file_present f before (log (snd rd)) = true \/ setup_failed (log (snd rd))).
Proof.
  intros wr rd.
  pose proof (benchmark_write_leaves_file env f c fl before start) as LW.
  pose proof (benchmark_read_leaves_file env f c fl before start) as LR.
  subst wr rd. split; intros Hd.
  - destruct (benchmark_write f c fl env start) as [[[] | s'] w];
      [discriminate | apply LW].
  - destruct (benchmark_read f c fl env start) as [[[] | s'] w];
      [discriminate | apply LR].
Qed.

(** The first [pwrite] is short: the file [open] created stays. *)
Lemma failed_run_leaves_file_witness :
  file_present default_filename false
    (log (snd (benchmark_write default_filename None 0 short_writes start))) = true
  \/ setup_failed
       (log (snd (benchmark_write default_filename None 0 short_writes start))).
Proof.
  destruct (failed_run_leaves_file short_writes default_filename None 0 false (-1))
    as (H & _).
  apply H. vm_compute. reflexivity.
Defined.

(** ** Alignment and extent of the transfers *)

Lemma size_aligned (e : Z) :
  minExp <= e <= maxExp -> (512 | 2 ^ e) /\ 0 < 2 ^ e <= maxSize.
Proof.
  intros He. split.
  - exists (2 ^ (e - 9)). change 512 with (2 ^ 9).
    rewrite <- Z.pow_add_r by (unfold minExp in He; lia). f_equal. lia.
  - split; [apply Z.pow_pos_nonneg; unfold minExp in He; lia | ].
    change maxSize with (2 ^ 28). apply Z.pow_le_mono_r; unfold maxExp in He; lia.
Qed.

Lemma live_buffer_app (l evs : list Event) :
  live_buffer (l ++ evs) = fold_left buffer_step evs (live_buffer l).
Proof. apply fold_left_app. Qed.

Lemma initial_bytes_app (l evs : list Event) :
  initial_bytes (l ++ evs) = fold_left written_step evs (initial_bytes l).
Proof. apply fold_left_app. Qed.

Lemma buffered_snoc b n l ev :
  buffered b n l -> fits_buffer l ev ->
  buffered (buffer_step b ev) (written_step n ev) (l ++ [ev]).
Proof.
  intros (Ha & Hb & Hn) Hev. split; [apply at_each_snoc; assumption | ].
  rewrite live_buffer_app, initial_bytes_app, Hb, Hn. auto.
Qed.

Lemma buffered_cons b n b' n' l ev evs :
  buffered b n l -> fits_buffer l ev ->
  (buffered (buffer_step b ev) (written_step n ev) (l ++ [ev]) ->
   buffered b' n' ((l ++ [ev]) ++ evs)) ->
  buffered b' n' (l ++ ev :: evs).
Proof.
  intros H Hev K. change (ev :: evs) with ([ev] ++ evs). rewrite app_assoc.
  apply K, buffered_snoc; assumption.
Qed.

Lemma buffered_done b n l : buffered b n l -> buffered b n (l ++ []).
Proof. rewrite app_nil_r. exact (fun H => H). Qed.

Lemma buffered_at_each b n l : buffered b n l -> at_each fits_buffer l.
Proof. intros H. apply H. Qed.

Lemma memalign_fits (l : list Event) (size r : Z) :
  live_buffer l = None -> fits_buffer l (Sys (Posix_memalign 512 size) r).
Proof. intros H. split; [reflexivity | exact H]. Qed.

Lemma pwrite_fits (l : list Event) (e k fd r : Z) :
  minExp <= e <= maxExp -> 0 <= k < repCount (2 ^ e) ->
  live_buffer l = Some maxSize ->
  fits_buffer l (Sys (Pwrite fd (2 ^ e) (k * 2 ^ e)) r).
Proof.
  intros He Hk Hb. destruct (size_aligned e He) as (Hd & Hs).
  pose proof (write_extent e He) as Hx. cbn [fits_buffer].
  split; [exact Hd | split; [apply Z.divide_mul_r, Hd | ]].
  split; [nia | split; [ | exists maxSize; split; [exact Hb | exact Hs]]].
  change (2 ^ 28) with 268435456 in *. nia.
Qed.

Lemma pread_fits (l : list Event) (e k fd r : Z) :
  minExp <= e <= maxExp -> 0 <= k < repCount (2 ^ e) ->
  live_buffer l = Some readMaxSize -> initial_bytes l = readMaxSize ->
  fits_buffer l (Sys (Pread fd (2 ^ e) (read_at e k)) r).
Proof.
  intros He Hk Hb Hn. destruct (size_aligned e He) as (Hd & Hs).
  destruct (read_within_file e k He Hk) as (H0 & Ha & Hin). cbn [fits_buffer].
  split; [exact Hd | split; [exact Ha | split; [exact H0 | ]]].
  split; [rewrite Hn; exact Hin | ].
  exists readMaxSize. split; [exact Hb | ]. split; [apply Hs | lia].
Qed.

Lemma initial_write_fits (l : list Event) (fd r : Z) :
  live_buffer l = Some readMaxSize ->
  fits_buffer l (Sys (Write fd readMaxSize) r).
Proof.
  intros Hb. split; [ | exact Hb]. exists (readMaxSize / 512). reflexivity.
Qed.

(** One event of the list appended to the log: [R] is the state of the
    buffer before it and becomes the state after it. *)
Ltac buf_step R :=
  eapply buffered_cons;
  [ exact R
  | first [ exact I
          | apply memalign_fits; exact (proj1 (proj2 R))
          | apply initial_write_fits; exact (proj1 (proj2 R))
          | apply pwrite_fits; [assumption | assumption | exact (proj1 (proj2 R))]
          | apply pread_fits;
            [assumption | assumption | exact (proj1 (proj2 R))
            | exact (proj2 (proj2 R))] ]
  | clear R; intros R; cbn [buffer_step written_step] in R;
    rewrite ?Z.eqb_refl in R ].

Ltac buf_end R := apply buffered_done; exact R.

Ltac buf_steps R := repeat buf_step R; buf_end R.

Lemma buffered_header b n l f c :
  buffered b n l ->
  buffered b n (l ++ write_header f c) /\ buffered b n (l ++ read_header f c).
Proof.
  intros R. unfold write_header, read_header.
  split; destruct c; cbn [app]; buf_steps R.
Qed.

Lemma benchmark_write_buffer (env : Env) (f : string) (c : option string)
    (fl : Z) (n : Z) (w : World) :
  buffered None n (log w) ->
  match benchmark_write f c fl env w with
  | (Done _, w') => buffered None n (log w')
  | (Exited s, w') => s = -1 /\ at_each fits_buffer (log w')
  end.
Proof.
  intros Hw. destruct (buffered_header _ _ _ f c Hw) as (R & _).
  apply write_sweep_rule with
    (J := fun _ l => buffered (Some maxSize) n l)
    (K := fun _ _ _ l => buffered (Some maxSize) n l).
  - buf_steps R.
  - intros m Hm. eapply buffered_at_each. buf_steps R.
  - clear R. intros e l fd He R Hfd. buf_steps R.
  - clear R. intros e l He R. eapply buffered_at_each. buf_steps R.
  - clear R. intros e fd k l r He Hk R. buf_steps R.
  - clear R. intros e fd k l r He Hk R Hr. eapply buffered_at_each. buf_steps R.
  - clear R. intros e fd l r1 r2 v He R. buf_steps R.
  - clear R. intros l R. buf_steps R.
Qed.

Lemma benchmark_read_buffer (env : Env) (f : string) (c : option string)
    (fl : Z) (n : Z) (w : World) :
  buffered None n (log w) ->
  match benchmark_read f c fl env w with
  | (Done _, w') => buffered None readMaxSize (log w')
  | (Exited s, w') => s = -1 /\ at_each fits_buffer (log w')
  end.
Proof.
  intros Hw. destruct (buffered_header _ _ _ f c Hw) as (_ & R).
  apply read_sweep_rule with
    (J := fun _ _ l => buffered (Some readMaxSize) readMaxSize l)
    (K := fun _ _ _ l => buffered (Some readMaxSize) readMaxSize l).
  - intros fd r Hfd. buf_steps R.
  - intros m Hm. eapply buffered_at_each. buf_steps R.
  - eapply buffered_at_each. buf_steps R.
  - intros fd m Hfd Hm. eapply buffered_at_each. buf_steps R.
  - intros fd e l He HJ. exact HJ.
  - clear R. intros fd e k l r He Hk R Hr. buf_steps R.
  - clear R. intros fd e k l r He Hk R Hr. eapply buffered_at_each. buf_steps R.
  - clear R. intros fd e l cyc He R. buf_steps R.
  - clear R. intros fd l r1 r2 R. buf_steps R.
Qed.

(** X6.  In every run of the program, at every call: an allocation asks for
    alignment 512 and is made when no buffer is alive; every [pwrite] and
    [pread] has a size and an offset that are multiples of 512, as direct I/O
    requires, and a positive size no larger than the buffer that its sweep
    allocated and that is alive at the call; every [pwrite] ends within the
    first [3 * 2^28] bytes of the file and every [pread] within the bytes the
    initial write of the read sweep put there; and that initial [write]
    writes exactly the size of the buffer alive at the call. *)
Theorem transfers_aligned_and_bounded (env : Env) (argv : list string) :
  at_each fits_buffer (log (snd (main argv env start))).
Proof.
  rewrite main_eq. case_if.
  - cbn [snd log app].
    change usage_log with ([] ++ [Printf Description] ++ [Printf Usage] ++ [Exit (-1)]).
    rewrite !app_assoc.
    repeat (apply at_each_snoc; [ | exact I]). apply at_each_nil.
  - assert (R0 : buffered None 0 (log start))
      by (split; [apply at_each_nil | split; reflexivity]).
    pose proof (benchmark_write_buffer env (main_filename argv) main_comment
                  main_flags 0 start R0) as W.
    destruct (benchmark_write _ _ _ env start) as [[[] | s] w1]; [ | apply W].
    pose proof (benchmark_read_buffer env (main_filename argv) main_comment
                  main_flags 0 w1 W) as R.
    destruct (benchmark_read _ _ _ env w1) as [[[] | s] w2]; apply R.
Qed.

(** The last read of the program on the all-success platform, of [2^28]
    bytes at offset [2 * 2^28]: it ends within the bytes of the initial
    write and fits the buffer alive at the call. *)
Lemma transfers_aligned_and_bounded_witness :
  exists pre post,
    log (snd (main ["Benchmark"] ideal start))
    = pre ++ Sys (Pread 3 268435456 536870912) 268435456 :: post /\
    536870912 + 268435456 <= initial_bytes pre /\
    exists size, live_buffer pre = Some size /\ 268435456 <= size.
Proof.
  set (L := log (snd (main ["Benchmark"] ideal start))).
  assert (E : L = firstn 3494 L
                  ++ Sys (Pread 3 268435456 536870912) 268435456 :: skipn 3495 L)
    by (vm_compute; reflexivity).
  destruct (transfers_aligned_and_bounded ideal ["Benchmark"] _ _ _ E)
    as (_ & _ & _ & Hin & size & Hb & Hs).
  exists (firstn 3494 L), (skipn 3495 L).
  split; [exact E | split; [exact Hin | ]].
  exists size. split; [exact Hb | apply Hs].
Defined.

(** ** The calls before the loops *)

(** X7.  The calls before the loops fail fast as well.  In every run of the
    program, a [posix_memalign] that does not return 0, an [open] that
    returns -1 and an initial [write] that does not return the size asked
    are each followed at once by their own [perror] diagnostic and
    [exit(-1)], with nothing after; and the program ends either returning 0,
    with no diagnostic in its log, or exiting with -1. *)
Theorem setup_failures_are_fatal (env : Env) (argv : list string) :
  let run := main argv env start in
  (forall pre a s r post,
     log (snd run) = pre ++ Sys (Posix_memalign a s) r :: post ->
     r = 0 \/ post = [Perror "Memalign failed"; Exit (-1)]) /\
  (forall pre p fl m r post,
     log (snd run) = pre ++ Sys (Open p fl m) r :: post ->
     r <> -1 \/ post = [Perror "Opening file failed"; Exit (-1)]) /\
  (forall pre fd count r post,
     log (snd run) = pre ++ Sys (Write fd count) r :: post ->
     r = count \/ post = [Perror "Initial Write"; Exit (-1)]) /\
  ((fst run = Done 0 /\
    Forall (fun ev => forall msg, ev <> Perror msg) (log (snd run)))
   \/ fst run = Exited (-1)).
Proof.
  intros run. pose proof (main_stops env argv) as M. subst run.
  destruct (main argv env start) as [[z | s] w]; cbn [fst snd].
  - destruct M as (-> & M).
    split; [ | split; [ | split]].
    + intros pre a s r post Heq. rewrite Heq in M. apply Forall_elt in M. left. exact M.
    + intros pre p fl m r post Heq. rewrite Heq in M. apply Forall_elt in M. left. exact M.
    + intros pre fd count r post Heq. rewrite Heq in M. apply Forall_elt in M. left. exact M.
    + left. split; [reflexivity | ].
      apply (Forall_impl _ (P := accepted)); [ | exact M].
      intros ev Hev msg ->. exact Hev.
  - destruct M as (-> & [M | M]).
    + split; [ | split; [ | split]].
      * intros pre a s r post Heq. apply (stopped_call _ _ _ _ _ M Heq).
      * intros pre p fl m r post Heq. apply (stopped_call _ _ _ _ _ M Heq).
      * intros pre fd count r post Heq. apply (stopped_call _ _ _ _ _ M Heq).
      * right. reflexivity.
    + rewrite M. split; [ | split; [ | split]].
      * intros pre a s r post Heq.
        destruct pre as [| x1 [| x2 [| x3 [| x4 pre]]]]; discriminate.
      * intros pre p fl m r post Heq.
        destruct pre as [| x1 [| x2 [| x3 [| x4 pre]]]]; discriminate.
      * intros pre fd count r post Heq.
        destruct pre as [| x1 [| x2 [| x3 [| x4 pre]]]]; discriminate.
      * right. reflexivity.
Qed.

(** The allocation of the write sweep fails: the diagnostic and the exit
    follow the call, and nothing else. *)
Lemma setup_failures_are_fatal_witness :
  exists pre,
    log (snd (main ["Benchmark"] no_memory start))
    = pre ++ [Sys (Posix_memalign 512 maxSize) 12;
              Perror "Memalign failed"; Exit (-1)].
Proof.
  set (L := log (snd (main ["Benchmark"] no_memory start))).
  assert (E : L = firstn 4 L ++ Sys (Posix_memalign 512 maxSize) 12 :: skipn 5 L)
    by (vm_compute; reflexivity).
  destruct (setup_failures_are_fatal no_memory ["Benchmark"]) as (H & _).
  destruct (H _ _ _ _ _ E) as [H0 | H0]; [discriminate H0 | ].
  exists (firstn 4 L). rewrite E at 1. rewrite H0. reflexivity.
Defined.

(** ** Resources across the two sweeps *)

(** X8.  Across the whole program, the hand-over from the write sweep to
    the read sweep included, exactly one buffer and exactly one descriptor
    are alive at every operation on a descriptor, and none is alive when a
    descriptor is opened: the buffer of the write sweep is freed before the
    read sweep allocates its own.  A program that completes leaves no
    descriptor open and no buffer allocated. *)
Theorem program_resources (env : Env) (argv : list string) :
  let run := main argv env start in
  at_each one_of_each (log (snd run)) /\
  (forall z, fst run = Done z ->
     live_fds (log (snd run)) = [] /\ live_bufs (log (snd run)) = 0%nat).
Proof.
  intros run. subst run. rewrite main_eq. case_if.
  - cbn [fst snd log app]. split; [ | discriminate].
    change usage_log with ([] ++ [Printf Description] ++ [Printf Usage] ++ [Exit (-1)]).
    rewrite !app_assoc.
    repeat (apply at_each_snoc; [ | exact I]). apply at_each_nil.
  - pose proof (benchmark_write_resources env (main_filename argv) main_comment
                  main_flags start resources_start) as W.
    destruct (benchmark_write _ _ _ env start) as [[[] | s] w1].
    + pose proof (benchmark_read_resources env (main_filename argv) main_comment
                    main_flags w1 W) as R.
      destruct (benchmark_read _ _ _ env w1) as [[[] | s] w2]; cbn [fst snd].
      * split; [apply R | intros _ _; apply R].
      * destruct R as (_ & fds & bufs & R). split; [apply R | discriminate].
    + destruct W as (_ & fds & bufs & W). cbn [fst snd].
      split; [apply W | discriminate].
Qed.

(** The program on the all-success platform ends with nothing alive. *)
Lemma program_resources_witness :
  live_fds (log (snd (main ["Benchmark"] ideal start))) = [] /\
  live_bufs (log (snd (main ["Benchmark"] ideal start))) = 0%nat.
Proof.
  destruct (program_resources ideal ["Benchmark"]) as (_ & H).
  apply (H 0). vm_compute. reflexivity.
Defined.
